(** * dup.py: duplicate file database

    A shallow embedding of the decision engine of [dup.py]: the content
    hasher [HashFile], the path comparison [sameDir], the scan [HashDir],
    and the [Database] methods [write], [DupCheck], [Integrity], [Purge]
    and [Remove].

    The sqlite table [files(path, hash)] is a list of rows in rowid order,
    as seen through the open connection.  The file system is a finite map
    from absolute path names to what the probes of the program
    ([os.path.exists], [os.path.isfile], [os.path.islink], [open],
    [os.remove]) can observe of that name.  Methods run in a monad that
    threads this world, collects what is printed and logged at warning
    level, records the statements that change the table or the disk, and
    propagates the exceptions that the program does not catch.

    Outside the model: two names of one file (a hard link, a path through
    a link to a directory); special files such as sockets and FIFOs, which
    [open] refuses in other ways or waits for; and the failures of sqlite:
    its statements always run here, and what it refuses is described by
    [text] and [like_pattern].  What the database file holds after a run
    that ends by an exception is [committed]. *)

From stdpp Require Import gmap strings list fin_maps sorting.
From Stdlib Require Import Ascii String ZArith.
From Stdlib Require Strings.Byte.
From Equations Require Import Equations.

Local Open Scope string_scope.
Local Open Scope list_scope.

(** ** Python strings and lists *)

(** [s.split(sep)] for a one-character separator: every occurrence of the
    separator cuts, empty pieces are kept, and the empty string gives one
    empty piece. *)
Fixpoint split (sep : ascii) (s : string) : list string :=
  match s with
  | EmptyString => [EmptyString]
  | String c s' =>
      if Ascii.eqb c sep then EmptyString :: split sep s'
      else match split sep s' with
           | [] => [String c EmptyString]
           | w :: ws => String c w :: ws
           end
  end.

(** [sep.join(l)], the inverse of [split]. *)
Fixpoint join (sep : ascii) (l : list string) : string :=
  match l with
  | [] => EmptyString
  | [w] => w
  | w :: ws => w +:+ String sep (join sep ws)
  end.

(** ["%s" % v] for a value that is a [str] or [None]. *)
Definition fmt (v : option string) : string :=
  match v with
  | Some s => s
  | None => "None"
  end.

(** Truth value of a [str] or [None]: [None] and the empty string are
    false. *)
Definition truthy (v : option string) : bool :=
  match v with
  | Some s => negb (String.eqb s "")
  | None => false
  end.

(** Whether a string of bytes is text, that is well-formed UTF-8.  A file
    name or an argument that is not text reaches the program as a [str]
    with surrogates, and sqlite3 refuses to bind such a [str] to a
    statement.  In [utf8 need lo hi bs], [need] continuation bytes are
    due, the next of them between [lo] and [hi]. *)
Fixpoint utf8 (need : nat) (lo hi : N) (bs : list N) : bool :=
  match bs with
  | [] => match need with 0 => true | S _ => false end
  | b :: bs' =>
      match need with
      | S n => N.leb lo b && N.leb b hi && utf8 n 128 191 bs'
      | 0 =>
          if N.leb b 127 then utf8 0 128 191 bs'
          else if N.leb 194 b && N.leb b 223 then utf8 1 128 191 bs'
          else if N.eqb b 224 then utf8 2 160 191 bs'
          else if N.leb 225 b && N.leb b 236 then utf8 2 128 191 bs'
          else if N.eqb b 237 then utf8 2 128 159 bs'
          else if N.leb 238 b && N.leb b 239 then utf8 2 128 191 bs'
          else if N.eqb b 240 then utf8 3 144 191 bs'
          else if N.leb 241 b && N.leb b 243 then utf8 3 128 191 bs'
          else if N.eqb b 244 then utf8 3 128 143 bs'
          else false
      end
  end.

Definition text (s : string) : Prop :=
  utf8 0 128 191 (N_of_ascii <$> list_ascii_of_string s) = true.

(** ** sameDir *)

Inductive Exn :=
| IndexError
| FileNotFoundError (p : string)
| PermissionError (p : string)
| IsADirectoryError (p : string).

#[global] Instance Exn_eq_dec : EqDecision Exn.
Proof. solve_decision. Defined.

(** The loop [for z in range(len(theFile)-1)] of [sameDir], with list
    indexing as Python does it: an index out of range raises. *)
Fixpoint sameDir_loop (thePath theFile : list string) (zs : list nat)
  : Exn + bool :=
  match zs with
  | [] => inr true
  | z :: zs' =>
      match thePath !! z, theFile !! z with
      | Some a, Some b =>
          if bool_decide (a ≠ b) then inr false
          else sameDir_loop thePath theFile zs'
      | _, _ => inl IndexError
      end
  end.

Definition sameDir_exn (thePath theFile : string) : Exn + bool :=
  let theFile := split "/" theFile in
  let thePath := split "/" thePath in
  if (Z.of_nat (List.length theFile) - Z.of_nat (List.length thePath) >? 1)%Z
  then inr false
  else sameDir_loop thePath theFile (seq 0 (List.length theFile - 1)).

(** [sameDir] never raises (lemma [sameDir_exn_total] below), so the
    callers use its Boolean result. *)
Definition sameDir (thePath theFile : string) : bool :=
  match sameDir_exn thePath theFile with
  | inr b => b
  | inl _ => false
  end.

(** The directory part of a path, as a list of segments: all segments but
    the last. *)
Definition dirSegments (p : string) : list string :=
  removelast (split "/" p).

(** A name without the separator: one segment. *)
Definition segment (name : string) : Prop := split "/" name = [name].

(** ** The [files] table *)

(** A row of [files]: [workingRecord[0]] is the path, [workingRecord[1]]
    the hash, which is a [str] or [None] (SQL NULL). *)
Record Row := mkRow { path : string; hash : option string }.

#[global] Instance Row_eq_dec : EqDecision Row.
Proof. solve_decision. Defined.

(** [hash = ?] in a [where] clause: NULL compares equal to nothing. *)
Definition sql_eq (a b : option string) : bool :=
  match a, b with
  | Some x, Some y => bool_decide (x = y)
  | _, _ => false
  end.

(** [x like pat] with [PRAGMA case_sensitive_like=ON] and no escape
    character, on strings of bytes: [%] matches any run of bytes, [_]
    exactly one, and every other byte itself.  (For sqlite [_] is one
    character, which is one byte in an ASCII name.) *)
Fixpoint like (pat : string) : string → bool :=
  match pat with
  | EmptyString => λ s, match s with EmptyString => true | _ => false end
  | String c pat' =>
      if Ascii.eqb c "%" then
        fix any (s : string) : bool :=
          like pat' s ||
          match s with EmptyString => false | String _ s' => any s' end
      else if Ascii.eqb c "_" then
        λ s, match s with EmptyString => false | String _ s' => like pat' s' end
      else
        λ s, match s with
             | EmptyString => false
             | String d s' => Ascii.eqb c d && like pat' s'
             end
  end.

(** A pattern without wild cards. *)
Definition literal (pat : string) : Prop :=
  Forall (λ c, c ≠ "%"%char ∧ c ≠ "_"%char) (list_ascii_of_string pat).

(** What sqlite takes as the pattern of [like]: text of at most 50000
    bytes (SQLITE_MAX_LIKE_PATTERN_LENGTH).  For another pattern the
    [select] of [Purge] and of [Remove] raises; they are outside the
    model. *)
Definition like_pattern (pat : string) : Prop :=
  text pat ∧ (Z.of_nat (String.length pat) ≤ 50000)%Z.

(** [order by] a text column: NULL first, then by byte-wise comparison.
    The sort is an insertion sort that keeps rowid order among equals. *)
Definition sql_le (a b : option string) : bool :=
  match a, b with
  | None, _ => true
  | Some _, None => false
  | Some x, Some y => String.leb x y
  end.

Fixpoint insert_by (key : Row → option string) (r : Row) (l : list Row)
  : list Row :=
  match l with
  | [] => [r]
  | x :: l' =>
      if sql_le (key x) (key r) then x :: insert_by key r l'
      else r :: x :: l'
  end.

Definition order_by (key : Row → option string) (l : list Row) : list Row :=
  foldl (λ acc r, insert_by key r acc) [] l.

(** The order of [order by] on the rows. *)
Definition key_le (key : Row → option string) (a b : Row) : Prop :=
  sql_le (key a) (key b) = true.

Definition select_where_path (p : string) (t : list Row) : list Row :=
  filter (λ r, path r = p) t.

Definition select_where_hash (h : option string) (t : list Row) : list Row :=
  filter (λ r, sql_eq (hash r) h = true) t.

Definition select_where_path_like (pat : string) (t : list Row) : list Row :=
  filter (λ r, like pat (path r) = true) t.

Definition update_hash_where_path (h : option string) (p : string)
  (t : list Row) : list Row :=
  (λ r, if bool_decide (path r = p) then mkRow (path r) h else r) <$> t.

Definition delete_where_path (p : string) (t : list Row) : list Row :=
  filter (λ r, path r ≠ p) t.

(** ** The world: table and file system *)

Abbreviation byte := Byte.byte.

(** What a path name resolves to: a regular file or a directory.
    [readable] says whether the process may open it for reading. *)
Inductive Node :=
| RegularFile (content : list byte) (readable : bool)
| Directory (readable : bool).

(** What sits at a path name: the thing itself, or a symbolic link, which
    resolves to a node or dangles. *)
Inductive Name :=
| Here (n : Node)
| Symlink (to : option Node).

(** [removable] says whether the containing directory lets the name be
    unlinked. *)
Record Entry := mkEntry { name : Name; removable : bool }.

Definition resolve (e : option Entry) : option Node :=
  match e with
  | Some (mkEntry (Here n) _) => Some n
  | Some (mkEntry (Symlink to) _) => to
  | None => None
  end.

Record World := mkWorld { files : list Row; fs : gmap string Entry }.

(** What a run leaves behind, in order: lines printed, messages logged at
    warning level (the level [main] configures; info and debug messages are
    left out), statements that changed the table, files unlinked. *)
Inductive Event :=
| Print (line : string)
| Warning (msg : string)
| SqlInsert (p : string) (h : option string)
| SqlUpdate (h : option string) (p : string)
| SqlDelete (p : string)
| OsRemove (p : string).

#[global] Instance Event_eq_dec : EqDecision Event.
Proof. solve_decision. Defined.

Inductive Result (A : Type) :=
| Ok (a : A)
| Raise (e : Exn).
Arguments Ok {A} a.
Arguments Raise {A} e.

Record Run (A : Type) :=
  mkRun { result : Result A; world : World; output : list Event }.
Arguments mkRun {A} _ _ _.
Arguments result {A} _.
Arguments world {A} _.
Arguments output {A} _.

(** The monad of the methods: state, output and uncaught exceptions. *)
Definition M (A : Type) : Type := World → Run A.

#[global] Instance M_ret : MRet M := λ A a w, mkRun (Ok a) w [].

#[global] Instance M_bind : MBind M := λ A B f m w,
  let r := m w in
  match result r with
  | Ok a =>
      let r' := f a (world r) in
      mkRun (result r') (world r') (output r ++ output r')
  | Raise e => mkRun (Raise e) (world r) (output r)
  end.

Definition emit (e : Event) : M unit := λ w, mkRun (Ok ()) w [e].
Definition print (line : string) : M unit := emit (Print line).
Definition logging_warning (msg : string) : M unit := emit (Warning msg).

Definition completes {A} (r : Run A) : Prop :=
  ∃ a, result r = Ok a.

(** [try: m except PermissionError: handler] *)
Definition try_except_PermissionError {A} (m handler : M A) : M A := λ w,
  let r := m w in
  match result r with
  | Raise (PermissionError _) =>
      let r' := handler (world r) in
      mkRun (result r') (world r') (output r ++ output r')
  | _ => r
  end.

(** [for a in l: body a] *)
Fixpoint for_each {A} (l : list A) (body : A → M unit) : M unit :=
  match l with
  | [] => mret ()
  | a :: l' => body a;; for_each l' body
  end.

(** A [for] loop that updates local variables [s]. *)
Fixpoint for_each_with {A S} (l : list A) (s : S) (body : A → S → M S)
  : M S :=
  match l with
  | [] => mret s
  | a :: l' => s' ← body a s; for_each_with l' s' body
  end.

(** *** Probes and actions *)

Definition os_path_exists (p : string) : M bool := λ w,
  mkRun (Ok (bool_decide (is_Some (resolve (fs w !! p))))) w [].

Definition os_path_isfile (p : string) : M bool := λ w,
  mkRun (Ok match resolve (fs w !! p) with
            | Some (RegularFile _ _) => true
            | _ => false
            end) w [].

Definition os_path_islink (p : string) : M bool := λ w,
  mkRun (Ok match fs w !! p with
            | Some (mkEntry (Symlink _) _) => true
            | _ => false
            end) w [].

(** [open(p, 'rb')]: the handle is the bytes still to be read. *)
Definition open_rb (p : string) : M (list byte) := λ w,
  match resolve (fs w !! p) with
  | Some (RegularFile content true) => mkRun (Ok content) w []
  | Some (RegularFile _ false) => mkRun (Raise (PermissionError p)) w []
  | Some (Directory true) => mkRun (Raise (IsADirectoryError p)) w []
  | Some (Directory false) => mkRun (Raise (PermissionError p)) w []
  | None => mkRun (Raise (FileNotFoundError p)) w []
  end.

(** [os.remove(p)] unlinks the name [p] itself. *)
Definition os_remove (p : string) : M unit := λ w,
  match fs w !! p with
  | None => mkRun (Raise (FileNotFoundError p)) w []
  | Some (mkEntry (Here (Directory _)) _) =>
      mkRun (Raise (IsADirectoryError p)) w []
  | Some (mkEntry _ false) => mkRun (Raise (PermissionError p)) w []
  | Some (mkEntry _ true) =>
      mkRun (Ok ()) (mkWorld (files w) (delete p (fs w))) [OsRemove p]
  end.

Definition fetchall (q : list Row → list Row) : M (list Row) := λ w,
  mkRun (Ok (q (files w))) w [].

Definition execute_insert (p : string) (h : option string) : M unit := λ w,
  mkRun (Ok ()) (mkWorld (files w ++ [mkRow p h]) (fs w)) [SqlInsert p h].

Definition execute_update (h : option string) (p : string) : M unit := λ w,
  mkRun (Ok ()) (mkWorld (update_hash_where_path h p (files w)) (fs w))
        [SqlUpdate h p].

Definition execute_delete (p : string) : M unit := λ w,
  mkRun (Ok ()) (mkWorld (delete_where_path p (files w)) (fs w))
        [SqlDelete p].

(** ** Reading a run *)

(** Events that are only reports: they change neither table nor disk. *)
Definition report (e : Event) : Prop :=
  match e with
  | Print _ | Warning _ => True
  | _ => False
  end.

#[global] Instance report_dec (e : Event) : Decision (report e).
Proof. destruct e; simpl; apply _. Defined.

(** The lines printed on standard output. *)
Definition printed (out : list Event) : list string :=
  omap (λ e, match e with Print s => Some s | _ => None end) out.

(** The notice that a dry run logs in place of a deletion. *)
Definition dry_run_notice : string := "... Just kidding, this is a dry run".

(** The decisions that a run reports: the lines it prints and the warnings
    it logs, but for the notice of a dry run. *)
Definition decision (e : Event) : bool :=
  match e with
  | Print _ => true
  | Warning m => negb (String.eqb m dry_run_notice)
  | _ => false
  end.

Definition decisions (out : list Event) : list Event :=
  filter (λ e, decision e = true) out.

(** A computation that leaves the world as it is and only reports. *)
Definition quiet {A} (m : M A) : Prop :=
  ∀ w, world (m w) = w ∧ Forall report (output (m w)).

Definition warning (e : Event) : Prop := ∃ m, e = Warning m.



(** ** HashFile *)

(** What the program takes from the Python library: the digest that
    [hashlib.sha256] gives for the bytes fed to it, and
    [os.path.abspath]. *)
Class Platform := {
  sha256_hexdigest : list byte → string;
  abspath : string → string
}.

Definition BLOCKSIZE : nat := Z.to_nat 65536.

(** [afile.read(n)]: the next [n] bytes, fewer at the end of the file, and
    the handle advanced past them. *)
Definition read (n : nat) (afile : list byte) : list byte * list byte :=
  (take n afile, drop n afile).

(** The [while len(buf) > 0] loop, for reads of [n] bytes.  The hasher is
    the bytes given to [hasher.update] so far. *)
Equations? read_loop (n : nat) (hasher buf afile : list byte) : list byte
  by wf (List.length buf + List.length afile) lt :=
  read_loop n hasher buf afile with decide (0 < List.length buf) := {
    | left _ =>
        read_loop n (hasher ++ buf) (read n afile).1 (read n afile).2
    | right _ => hasher }.
Proof.
  rewrite length_take, length_drop. lia.
Qed.

Section Program.
Context `{Platform}.

Definition HashFile (theFile : string) : M (option string) :=
  let hasher := [] in
  found ← os_path_exists theFile;
  if negb found then
    logging_warning ("File " +:+ theFile +:+ " no longer exists");;
    mret None
  else
    try_except_PermissionError
      (afile ← open_rb theFile;
       let '(buf, afile) := read BLOCKSIZE afile in
       let hasher := read_loop BLOCKSIZE hasher buf afile in
       mret (Some (sha256_hexdigest hasher)))
      (logging_warning ("Unable to read " +:+ theFile);;
       mret None).

(** ** Database.write *)

Definition write (theHash : option string) (thePath : string) : M unit :=
  matchingRecords ← fetchall (select_where_path thePath);
  match matchingRecords with
  | [] => execute_insert thePath theHash
  | first :: others =>
      (if bool_decide (1 < List.length matchingRecords)
       then logging_warning
              ("Santity check failure.  Multiple database enties for "
               +:+ thePath)
       else mret () : M unit);;
      if bool_decide (hash first ≠ theHash) then
        logging_warning ("Hash changed for " +:+ thePath);;
        execute_update theHash thePath
      else mret ()
  end.

(** ** Database.DupCheck *)

Definition DupCheck_body (workingRecord : Row)
  (s : option string * list string) : M (option string * list string) :=
  let '(old_hash, pathList) := s in
  if bool_decide (old_hash ≠ hash workingRecord) then
    (if bool_decide (1 < List.length pathList) then
       print ("Hash " +:+ fmt old_hash);;
       for_each pathList (λ y, print ("  " +:+ y))
     else mret () : M unit);;
    mret (hash workingRecord, [path workingRecord])
  else
    mret (old_hash, pathList ++ [path workingRecord]).

Definition DupCheck : M unit :=
  rows ← fetchall (order_by hash);
  for_each_with rows (Some "", []) DupCheck_body;;
  mret ().

(** The lines that report a group of duplicates. *)
Definition group_report (h : option string) (paths : list string)
  : list Event :=
  Print ("Hash " +:+ fmt h) :: ((λ y, Print ("  " +:+ y)) <$> paths).

(** ** Database.Integrity *)

Definition Integrity_body (DRY_RUN : bool) (workingRecord : Row) : M unit :=
  isfile ← os_path_isfile (path workingRecord);
  if isfile : bool then
    hash' ← HashFile (path workingRecord);
    if bool_decide (hash workingRecord ≠ hash') then
      print ("File " +:+ path workingRecord +:+ " changed." +:+
             String "010" "  Old hash:" +:+ fmt (hash workingRecord) +:+
             String "010" "  New hash:" +:+ fmt hash');;
      if negb DRY_RUN then execute_update hash' (path workingRecord)
      else mret ()
    else mret ()
  else
    logging_warning ("File " +:+ path workingRecord +:+ " no longer exists");;
    if negb DRY_RUN then execute_delete (path workingRecord)
    else mret ().

Definition Integrity (DRY_RUN : bool) : M unit :=
  rows ← fetchall (order_by (λ r, Some (path r)));
  for_each rows (Integrity_body DRY_RUN).

(** ** Database.Purge *)

(** The loop over [duplicates] that sets [die]. *)
Definition Purge_check (x : Row) (die : bool) : M bool :=
  islink ← os_path_islink (path x);
  die ← (if islink : bool then
           logging_warning ("Refusing to process linked file " +:+ path x);;
           mret true
         else mret die);
  theHash ← HashFile (path x);
  if negb (truthy theHash) || bool_decide (hash x ≠ theHash) then
    logging_warning ("Refusing to purge " +:+ path x +:+ " (Hash changed)");;
    mret true
  else mret die.

(** The loop that counts the rows that [sameDir] puts with the
    candidate. *)
Definition Purge_count (workingRecord : Row) (rows : list Row) : nat :=
  List.length (filter (λ x, sameDir (path workingRecord) (path x) = true) rows).

Definition Purge_body (DRY_RUN : bool) (theRealPath : string)
  (workingRecord : Row) : M unit :=
  if negb (sameDir theRealPath (path workingRecord)) then mret ()
  else
    duplicates ← fetchall (select_where_hash (hash workingRecord));
    die ← for_each_with duplicates false Purge_check;
    if die : bool then mret ()
    else if bool_decide (List.length duplicates < 2) then mret ()
    else
      rows ← fetchall (select_where_hash (hash workingRecord));
      let count := Purge_count workingRecord rows in
      if bool_decide (count ≠ 1) then
        logging_warning
          ("Refusing to purge " +:+ path workingRecord +:+
           " (Duplicate of file in same directory)")
      else
        print ("Purging file: " +:+ path workingRecord);;
        if DRY_RUN then
          logging_warning "... Just kidding, this is a dry run"
        else
          execute_delete (path workingRecord);;
          os_remove (path workingRecord).

Definition Purge (DRY_RUN : bool) (thePath : string) : M unit :=
  let theRealPath := abspath thePath in
  rows ← fetchall (select_where_path_like (theRealPath +:+ "%"));
  for_each rows (Purge_body DRY_RUN theRealPath).

(** ** Database.Remove *)

Definition Remove_body (DRY_RUN : bool) (workingRecord : Row) : M unit :=
  print ("Removing " +:+ path workingRecord +:+ " from the database");;
  if DRY_RUN then
    logging_warning "... Just kidding, this is a dry run"
  else
    execute_delete (path workingRecord).

Definition Remove (DRY_RUN : bool) (thePath : string) : M unit :=
  let theRealPath := abspath thePath in
  rows ← fetchall (select_where_path_like (theRealPath +:+ "%"));
  for_each rows (Remove_body DRY_RUN).

(** ** HashDir *)

(** What [os.walk] yields is the argument [walk]: for each directory of
    the tree its name, the names of its directories and the names of its
    files.  [theDatabase] tells whether the global of that name is set. *)
Definition HashDir (theDatabase : bool)
  (walk : list (string * list string * list string)) : M unit :=
  for_each walk (λ '(root, dirs, files),
    for_each files (λ theFile,
      let theFilePath := abspath (root +:+ "/" +:+ theFile) in
      if theDatabase then
        theHash ← HashFile theFilePath;
        write theHash theFilePath
      else mret ())).

(** ** The commands of [main] *)

Inductive Command :=
| Check
| PurgeCmd (thePath : string)
| RemoveCmd (thePath : string).

Definition run_command (DRY_RUN : bool) (c : Command) : M unit :=
  match c with
  | Check => Integrity DRY_RUN
  | PurgeCmd p => Purge DRY_RUN p
  | RemoveCmd p => Remove DRY_RUN p
  end.

Definition run_commands (DRY_RUN : bool) (cs : list Command) : M unit :=
  for_each cs (run_command DRY_RUN).

(** ** Vocabulary of the properties *)

(** A record is up to date when its path is a regular file and hashing it
    gives the stored value. *)
Definition up_to_date (w : World) (r : Row) : Prop :=
  result (os_path_isfile (path r) w) = Ok true ∧
  result (HashFile (path r) w) = Ok (hash r).

(** A record is fresh when its path is not a symbolic link and hashing it
    gives the stored value, which is a digest. *)
Definition fresh (w : World) (x : Row) : Prop :=
  result (os_path_islink (path x) w) = Ok false ∧
  result (HashFile (path x) w) = Ok (hash x) ∧
  truthy (hash x) = true.

(** The checks of [Purge] that a candidate passes before it is deleted. *)
Definition purgeable (theRealPath : string) (w : World) (cand : Row) : Prop :=
  let duplicates := select_where_hash (hash cand) (files w) in
  sameDir theRealPath (path cand) = true ∧
  Forall (fresh w) duplicates ∧
  (2 ≤ List.length duplicates)%nat ∧
  Purge_count cand duplicates = 1.

(** Every candidate of a purge is still in the table, or its file is
    gone. *)
Definition tracked (cands : list Row) (w : World) : Prop :=
  ∀ r, r ∈ cands → r ∈ files w ∨ fs w !! path r = None.

(** [Purge] comes to the candidate [cand] in the world [w]: the candidates
    before it have had their turn, and none raised. *)
Definition Purge_turn (DRY_RUN : bool) (thePath : string) (w0 : World)
  (cand : Row) (w : World) : Prop :=
  ∃ before after,
    select_where_path_like (abspath thePath +:+ "%") (files w0) =
      before ++ cand :: after ∧
    result (for_each before (Purge_body DRY_RUN (abspath thePath)) w0) = Ok () ∧
    w = world (for_each before (Purge_body DRY_RUN (abspath thePath)) w0).


(** What [os.path.isfile] and [HashFile] return for a path, as values. *)
Definition isfile_at (w : World) (p : string) : bool :=
  match result (os_path_isfile p w) with
  | Ok b => b
  | Raise _ => false
  end.

Definition hash_at (w : World) (p : string) : option string :=
  match result (HashFile p w) with
  | Ok h => h
  | Raise _ => None
  end.

(** The paths that [HashDir] comes to, in order. *)
Definition walked_in (entry : string * list string * list string)
  : list string :=
  let '(root, dirs, files) := entry in
  (λ theFile, abspath (root +:+ "/" +:+ theFile)) <$> files.

Definition walked (walk : list (string * list string * list string))
  : list string :=
  List.concat (walked_in <$> walk).

(** One file of the scan. *)
Definition scan (theFilePath : string) : M unit :=
  theHash ← HashFile theFilePath;
  write theHash theFilePath.

End Program.

(** ** Scenarios *)

(** A stand-in for the Python library, to run the program on examples: the
    digest of a content is the content read as text, and the paths given
    are absolute already. *)
Definition demo_platform : Platform :=
  {| sha256_hexdigest := λ content,
       string_of_list_ascii (ascii_of_byte <$> content);
     abspath := λ thePath, thePath |}.

(** A readable regular file with the given text, in a directory that lets
    it be unlinked. *)
Definition plain (text : string) : Entry :=
  mkEntry (Here (RegularFile (byte_of_ascii <$> list_ascii_of_string text) true))
          true.

(** Two files of the same content in two directories. *)
Definition scenario_A : World :=
  mkWorld [mkRow "/a/x.txt" (Some "H"); mkRow "/b/x.txt" (Some "H")]
          (<["/a/x.txt" := plain "H"]> (<["/b/x.txt" := plain "H"]> ∅)).

(** Two files of the same content in one directory. *)
Definition scenario_B : World :=
  mkWorld [mkRow "/a/x.txt" (Some "H"); mkRow "/a/y.txt" (Some "H")]
          (<["/a/x.txt" := plain "H"]> (<["/a/y.txt" := plain "H"]> ∅)).


(** A path that is a directory. *)
Definition scenario_directory : World :=
  mkWorld [] (<["/d" := mkEntry (Here (Directory true)) true]> ∅).

(** Records in [/old], in a directory below it, and in [/older]. *)
Definition scenario_old : World :=
  mkWorld [mkRow "/old/x.txt" (Some "H"); mkRow "/older/x.txt" (Some "G");
           mkRow "/old/sub/deep/x.txt" (Some "F")] ∅.

(** Two groups of two records. *)
Definition scenario_two_groups : World :=
  mkWorld [mkRow "/a/x" (Some "H"); mkRow "/a/y" (Some "G");
           mkRow "/b/x" (Some "H"); mkRow "/b/y" (Some "G")] ∅.

(** A record with a stored digest whose file cannot be read. *)
Definition scenario_unreadable : World :=
  mkWorld [mkRow "/a/x" (Some "H")]
          (<["/a/x" := mkEntry (Here (RegularFile [Byte.x48] false)) true]> ∅).

(** Scenario A twice over, where the first file cannot be unlinked. *)
Definition scenario_batch : World :=
  mkWorld [mkRow "/a/x.txt" (Some "H"); mkRow "/b/x.txt" (Some "H");
           mkRow "/a/z.txt" (Some "G"); mkRow "/b/z.txt" (Some "G")]
          (<["/a/x.txt" :=
               mkEntry (Here (RegularFile [Byte.x48] true)) false]>
             (<["/b/x.txt" := plain "H"]>
                (<["/a/z.txt" := plain "G"]>
                   (<["/b/z.txt" := plain "G"]> ∅)))).


(** Candidates of [/a] that fail a check, each with a copy in [/b]: the
    copy of [x] is missing, [u] cannot be read, [l] is a symbolic link,
    the content of [s] has changed, [d1] and [d2] are duplicates in one
    directory; and the candidate [ok], which passes them all. *)
Definition scenario_failures : World :=
  mkWorld [mkRow "/a/x.txt" (Some "H"); mkRow "/b/x.txt" (Some "H");
           mkRow "/a/u.txt" (Some "K"); mkRow "/b/u.txt" (Some "K");
           mkRow "/a/l.txt" (Some "L"); mkRow "/b/l.txt" (Some "L");
           mkRow "/a/s.txt" (Some "S"); mkRow "/b/s.txt" (Some "S");
           mkRow "/a/d1.txt" (Some "D"); mkRow "/a/d2.txt" (Some "D");
           mkRow "/a/ok.txt" (Some "O"); mkRow "/b/ok.txt" (Some "O")]
          (<["/a/x.txt" := plain "H"]>
          (<["/a/u.txt" :=
               mkEntry (Here (RegularFile [Byte.x4b] false)) true]>
          (<["/b/u.txt" := plain "K"]>
          (<["/a/l.txt" :=
               mkEntry (Symlink (Some (RegularFile [Byte.x4c] true))) true]>
          (<["/b/l.txt" := plain "L"]>
          (<["/a/s.txt" := plain "T"]>
          (<["/b/s.txt" := plain "S"]>
          (<["/a/d1.txt" := plain "D"]>
          (<["/a/d2.txt" := plain "D"]>
          (<["/a/ok.txt" := plain "O"]>
          (<["/b/ok.txt" := plain "O"]> ∅))))))))))).


(** Three files of the same content: [/a/bg], which the pattern of
    [/a/b] matches, [/a/b/f] and [/z/t]. *)
Definition scenario_ancestor : World :=
  mkWorld [mkRow "/a/bg" (Some "H"); mkRow "/a/b/f" (Some "H");
           mkRow "/z/t" (Some "H")]
          (<["/a/bg" := plain "H"]>
             (<["/a/b/f" := plain "H"]> (<["/z/t" := plain "H"]> ∅))).

(** An empty table, a regular file and a symbolic link that dangles, and
    what [os.walk] yields for their directory. *)
Definition scenario_scan : World :=
  mkWorld [] (<["/a/x.txt" := plain "H"]>
                (<["/a/gone" := mkEntry (Symlink None) true]> ∅)).

Definition walk_scan : list (string * list string * list string) :=
  [("/a", [], ["x.txt"; "gone"])].

(** * Properties *)

(** ** Paths *)

Lemma split_nonempty (sep : ascii) (s : string) : split sep s ≠ [].
Proof.
  induction s as [|c s IH]; simpl; [done|].
  destruct (Ascii.eqb c sep); [done|].
  by destruct (split sep s).
Qed.

(** Joining the pieces of a split gives the string back. *)
Lemma join_split (sep : ascii) (s : string) : join sep (split sep s) = s.
Proof.
  induction s as [|c s IH]; [done|]. cbn [split].
  pose proof (split_nonempty sep s) as Hne.
  destruct (Ascii.eqb_spec c sep) as [->|Hc].
  - destruct (split sep s) as [|w ws]; [done|].
    change (join sep (EmptyString :: w :: ws))
      with (String sep (join sep (w :: ws))).
    by rewrite IH.
  - destruct (split sep s) as [|w ws]; [done|].
    destruct ws as [|w' ws]; simpl in *; by rewrite <- IH.
Qed.

Lemma split_dirSegments (p : string) :
  ∃ base, split "/" p = dirSegments p ++ [base].
Proof.
  unfold dirSegments.
  destruct (exists_last (split_nonempty "/" p)) as (d & b & ->).
  exists b. by rewrite removelast_last.
Qed.

Lemma dirSegments_length (p : string) :
  List.length (dirSegments p) = List.length (split "/" p) - 1.
Proof.
  destruct (split_dirSegments p) as [b Hb]. rewrite Hb.
  rewrite length_app. simpl. lia.
Qed.

Lemma sameDir_loop_total (thePath theFile : list string) (zs : list nat) :
  Forall (λ z, z < List.length thePath ∧ z < List.length theFile) zs →
  ∃ b, sameDir_loop thePath theFile zs = inr b ∧
       (b = true ↔ Forall (λ z, thePath !! z = theFile !! z) zs).
Proof.
  induction 1 as [|z zs [Hp Hf] _ IH]; simpl.
  - exists true. split; [done|]. by split.
  - apply lookup_lt_is_Some in Hp as [a Ha], Hf as [b Hb].
    rewrite Ha, Hb. case_bool_decide as Hab.
    + exists false. split; [done|]. split; [done|].
      intros Hall. apply Forall_cons in Hall as [Heq _]. congruence.
    + destruct IH as (r & -> & Hr). exists r. split; [done|].
      rewrite Hr. split.
      * intros HF. constructor; [congruence|done].
      * intros HF. by inversion HF.
Qed.

(** [sameDir] never raises: every index it uses is in range. *)
Lemma sameDir_exn_total (thePath theFile : string) :
  sameDir_exn thePath theFile = inr (sameDir thePath theFile).
Proof.
  unfold sameDir. unfold sameDir_exn.
  destruct (Z.gtb_spec
              (Z.of_nat (List.length (split "/" theFile)) -
               Z.of_nat (List.length (split "/" thePath))) 1) as [Hgt|Hle];
    [done|].
  destruct (sameDir_loop_total (split "/" thePath) (split "/" theFile)
              (seq 0 (List.length (split "/" theFile) - 1))) as (b & -> & _);
    [|done].
  apply Forall_forall. intros z Hz. apply elem_of_seq in Hz. lia.
Qed.

(** What [sameDir] decides: the directory segments of [theFile] begin the
    segments of [thePath]. *)
Lemma sameDir_spec (thePath theFile : string) :
  sameDir thePath theFile = true ↔
  dirSegments theFile `prefix_of` split "/" thePath.
Proof.
  unfold sameDir, sameDir_exn.
  pose proof (dirSegments_length theFile) as Hlen.
  destruct (split_dirSegments theFile) as [base HF].
  set (F := split "/" theFile) in *. set (P := split "/" thePath) in *.
  set (D := dirSegments theFile) in *.
  destruct (Z.gtb_spec (Z.of_nat (List.length F) - Z.of_nat (List.length P)) 1)
    as [Hgt|Hle].
  - split; [done|]. intros [k Hk]. rewrite Hk, length_app in Hgt. lia.
  - destruct (sameDir_loop_total P F (seq 0 (List.length F - 1)))
      as (b & -> & Hb).
    { apply Forall_forall. intros z Hz. apply elem_of_seq in Hz. lia. }
    rewrite Hb, Forall_forall. split.
    + intros Hall. exists (drop (List.length D) P).
      rewrite <- (take_drop (List.length D) P) at 1. f_equal.
      apply list_eq. intros z.
      destruct (decide (z < List.length D)) as [Hz|Hz].
      * rewrite lookup_take_lt by done. rewrite Hall.
        -- by rewrite HF, lookup_app_l.
        -- apply elem_of_seq. lia.
      * rewrite lookup_take_ge by lia. symmetry. apply lookup_ge_None. lia.
    + intros [k Hk] z Hz. apply elem_of_seq in Hz.
      rewrite Hk, HF, !lookup_app_l by lia. done.
Qed.

(** Two files of one directory are in the same directory for [sameDir]. *)
Lemma sameDir_same_directory (p q : string) :
  dirSegments p = dirSegments q → sameDir p q = true.
Proof.
  intros Heq. apply sameDir_spec. rewrite <- Heq.
  destruct (split_dirSegments p) as [b ->]. by exists [b].
Qed.

Lemma sameDir_refl (p : string) : sameDir p p = true.
Proof. by apply sameDir_same_directory. Qed.

(** X1. [sameDir] raises for no pair of strings: every index of its loop
    is in range.  It returns [True] exactly when the directory segments of
    [theFile] begin the segments of [thePath]. *)
Theorem sameDir_never_raises (thePath theFile : string) :
  ∃ b, sameDir_exn thePath theFile = inr b ∧
       (b = true ↔ dirSegments theFile `prefix_of` split "/" thePath).
Proof.
  exists (sameDir thePath theFile).
  split; [apply sameDir_exn_total|apply sameDir_spec].
Qed.

Lemma split_app (sep : ascii) (a b : string) :
  split sep (a +:+ String sep b) = split sep a ++ split sep b.
Proof.
  induction a as [|c a IH]; simpl.
  - by rewrite Ascii.eqb_refl.
  - destruct (Ascii.eqb c sep); [by rewrite IH|].
    rewrite IH. pose proof (split_nonempty sep a) as Hne.
    by destruct (split sep a).
Qed.

Lemma dirSegments_below (d rest : string) :
  dirSegments (d +:+ String "/" rest) = split "/" d ++ dirSegments rest.
Proof.
  unfold dirSegments. rewrite split_app.
  destruct (split_dirSegments rest) as [base Hrest]. unfold dirSegments in Hrest.
  rewrite Hrest at 1. rewrite (assoc_L (++)), !removelast_last. done.
Qed.

(** X2. Of the paths below a directory, [sameDir] takes the files that are in
    the directory itself and none of those in a directory below it. *)
Lemma sameDir_directory (d rest : string) :
  sameDir d (d +:+ String "/" rest) = true ↔ segment rest.
Proof.
  rewrite sameDir_spec, dirSegments_below. unfold segment.
  destruct (split_dirSegments rest) as [base Hrest].
  split.
  - intros [k Hk].
    assert (dirSegments rest = []) as Hnil.
    { apply (f_equal List.length) in Hk. rewrite !length_app in Hk.
      destruct (dirSegments rest); [done|simpl in Hk; lia]. }
    rewrite Hnil in Hrest. simpl in Hrest.
    pose proof (join_split "/" rest) as Hjoin. rewrite Hrest in Hjoin.
    simpl in Hjoin. by rewrite Hrest, Hjoin.
  - intros Hseg. rewrite Hseg in Hrest.
    destruct (dirSegments rest) as [|x [|y l]]; simplify_eq/=.
    by rewrite app_nil_r.
Qed.

(** X3. A file that is in a directory is in the same directory as every path
    below that directory, however deep. *)
Lemma sameDir_above (d rest name : string) :
  segment name →
  sameDir (d +:+ String "/" rest) (d +:+ String "/" name) = true.
Proof.
  intros Hseg. rewrite sameDir_spec, dirSegments_below, split_app.
  unfold dirSegments. rewrite Hseg. simpl. rewrite app_nil_r.
  by apply prefix_app_r.
Qed.

(** ** The table *)

(** With [%] at the end of a pattern without wild cards, [like] is the
    test for a prefix of characters. *)
Lemma like_percent (s : string) : like "%" s = true.
Proof. induction s as [|c s IH]; [done|]. simpl in *. by rewrite IH. Qed.

Lemma like_prefix (pat s : string) :
  literal pat →
  like (pat +:+ "%") s = true ↔ ∃ rest, s = pat +:+ rest.
Proof.
  unfold literal. revert s. induction pat as [|c pat IH]; intros s Hlit.
  - split; [by exists s|]. intros _. apply like_percent.
  - simpl in Hlit. apply Forall_cons in Hlit as [[Hp Hu] Hlit].
    simpl.
    rewrite (proj2 (Ascii.eqb_neq _ _) Hp), (proj2 (Ascii.eqb_neq _ _) Hu).
    destruct s as [|d s].
    + split; [done|]. by intros [rest [=]].
    + rewrite andb_true_iff, Ascii.eqb_eq, IH by done. split.
      * intros [-> [rest ->]]. by exists rest.
      * intros [rest [= -> ->]]. split; [done|]. by exists rest.
Qed.

Lemma update_hash_paths (h : option string) (p : string) (t : list Row) :
  path <$> update_hash_where_path h p t = path <$> t.
Proof.
  unfold update_hash_where_path. rewrite <- list_fmap_compose.
  apply list_fmap_ext. intros i r _. simpl. by case_bool_decide.
Qed.

Lemma select_where_path_update (h : option string) (p : string)
  (t : list Row) :
  select_where_path p (update_hash_where_path h p t) =
  (λ _, mkRow p h) <$> select_where_path p t.
Proof.
  unfold select_where_path, update_hash_where_path.
  induction t as [|r t IH]; [done|].
  rewrite fmap_cons, !filter_cons. case_bool_decide as Hp; cbn [path].
  - rewrite !decide_True by done. rewrite fmap_cons, IH. by rewrite Hp.
  - rewrite !decide_False by done. done.
Qed.

Lemma select_where_path_NoDup (p : string) (t : list Row) :
  NoDup (path <$> t) → (List.length (select_where_path p t) ≤ 1)%nat.
Proof.
  unfold select_where_path. induction t as [|r t IH]; [simpl; lia|].
  rewrite fmap_cons. intros [Hr Hnd]%NoDup_cons. rewrite filter_cons.
  destruct (decide (path r = p)) as [Hp|Hp]; [|by apply IH].
  assert (filter (λ r, path r = p) t = []) as ->; [|simpl; lia].
  apply elem_of_nil_inv. intros x [Hx Hin]%list_elem_of_filter.
  apply Hr. rewrite Hp, <- Hx. by apply list_elem_of_fmap_2.
Qed.

Lemma elem_of_insert_by (key : Row → option string) (r : Row) (l : list Row)
  (x : Row) :
  x ∈ insert_by key r l ↔ x = r ∨ x ∈ l.
Proof.
  induction l as [|y l IH]; simpl.
  - rewrite list_elem_of_singleton, elem_of_nil. tauto.
  - destruct (sql_le (key y) (key r)).
    + rewrite !elem_of_cons, IH. tauto.
    + by rewrite !elem_of_cons.
Qed.

(** [order by] returns the rows of the table. *)
Lemma elem_of_order_by (key : Row → option string) (l : list Row) (x : Row) :
  x ∈ order_by key l ↔ x ∈ l.
Proof.
  unfold order_by.
  assert (∀ acc, x ∈ foldl (λ acc r, insert_by key r acc) acc l ↔
                 x ∈ acc ∨ x ∈ l) as Hgen.
  { induction l as [|y l IH]; intros acc; simpl.
    - rewrite elem_of_nil. tauto.
    - rewrite IH, elem_of_insert_by, elem_of_cons. tauto. }
  rewrite Hgen, elem_of_nil. tauto.
Qed.

Lemma select_where_path_other (h : option string) (p q : string)
  (t : list Row) :
  q ≠ p →
  select_where_path q (update_hash_where_path h p t) = select_where_path q t.
Proof.
  intros Hne. unfold select_where_path, update_hash_where_path.
  induction t as [|r t IH]; [done|].
  rewrite fmap_cons, !filter_cons. case_bool_decide as Hp; cbn [path].
  - rewrite !decide_False by congruence. done.
  - by rewrite IH.
Qed.

Lemma by_path_fmap (g : Row → Row) (P : string → bool)
  (f : string → option string) (l : list Row) :
  (∀ r, path (g r) = path r) →
  (λ r, mkRow (path r) (f (path r))) <$>
    filter (λ r, P (path r) = true) (g <$> l) =
  (λ r, mkRow (path r) (f (path r))) <$> filter (λ r, P (path r) = true) l.
Proof.
  intros Hg. induction l as [|r l IH]; [done|].
  rewrite fmap_cons, !filter_cons, Hg.
  destruct (decide (P (path r) = true)); [|done].
  by rewrite !fmap_cons, Hg, IH.
Qed.

(** ** Runs *)

Lemma bind_Ok {A B} (m : M A) (f : A → M B) (w : World) (a : A) :
  result (m w) = Ok a →
  (m ≫= f) w =
  mkRun (result (f a (world (m w)))) (world (f a (world (m w))))
        (output (m w) ++ output (f a (world (m w)))).
Proof. intros Hm. unfold mbind, M_bind. by rewrite Hm. Qed.

Lemma bind_Raise {A B} (m : M A) (f : A → M B) (w : World) (e : Exn) :
  result (m w) = Raise e →
  (m ≫= f) w = mkRun (Raise e) (world (m w)) (output (m w)).
Proof. intros Hm. unfold mbind, M_bind. by rewrite Hm. Qed.

Lemma Run_eta {A} (r : Run A) :
  r = mkRun (result r) (world r) (output r).
Proof. by destruct r. Qed.

Lemma quiet_ret {A} (a : A) : quiet (mret a : M A).
Proof. intros w. by split. Qed.

Lemma quiet_bind {A B} (m : M A) (f : A → M B) :
  quiet m → (∀ a, quiet (f a)) → quiet (m ≫= f).
Proof.
  intros Hm Hf w. destruct (Hm w) as [Hw Ho].
  destruct (result (m w)) as [a|e] eqn:Hr.
  - rewrite (bind_Ok _ _ _ _ Hr). simpl. destruct (Hf a (world (m w))) as [Hw' Ho'].
    split; [congruence|]. by apply Forall_app.
  - rewrite (bind_Raise _ _ _ _ Hr). by split.
Qed.

Lemma quiet_print (s : string) : quiet (print s).
Proof. intros w. split; [done|]. by repeat constructor. Qed.

Lemma quiet_logging_warning (s : string) : quiet (logging_warning s).
Proof. intros w. split; [done|]. by repeat constructor. Qed.

Lemma quiet_fetchall (q : list Row → list Row) : quiet (fetchall q).
Proof. intros w. by split. Qed.

Lemma quiet_os_path_exists (p : string) : quiet (os_path_exists p).
Proof. intros w. by split. Qed.

Lemma quiet_os_path_isfile (p : string) : quiet (os_path_isfile p).
Proof. intros w. by split. Qed.

Lemma quiet_os_path_islink (p : string) : quiet (os_path_islink p).
Proof. intros w. by split. Qed.

Lemma quiet_open_rb (p : string) : quiet (open_rb p).
Proof.
  intros w. unfold open_rb.
  destruct (resolve (fs w !! p)) as [[c [|]|[|]]|]; by split.
Qed.

Lemma quiet_try_except_PermissionError {A} (m handler : M A) :
  quiet m → quiet handler → quiet (try_except_PermissionError m handler).
Proof.
  intros Hm Hh w. unfold try_except_PermissionError.
  destruct (Hm w) as [Hw Ho].
  destruct (result (m w)) as [a|[]]; try done. simpl.
  destruct (Hh (world (m w))) as [Hw' Ho'].
  split; [congruence|]. by apply Forall_app.
Qed.

Lemma quiet_for_each {A} (l : list A) (body : A → M unit) :
  (∀ a, quiet (body a)) → quiet (for_each l body).
Proof.
  intros Hb. induction l as [|a l IH]; simpl.
  - apply quiet_ret.
  - apply quiet_bind; [apply Hb|]. by intros _.
Qed.

Lemma quiet_for_each_with {A S} (l : list A) (s : S) (body : A → S → M S) :
  (∀ a s, quiet (body a s)) → quiet (for_each_with l s body).
Proof.
  intros Hb. revert s. induction l as [|a l IH]; intros s; simpl.
  - apply quiet_ret.
  - apply quiet_bind; [apply Hb|]. apply IH.
Qed.

Create HintDb quiet.
#[global] Hint Resolve quiet_ret quiet_print quiet_logging_warning
  quiet_fetchall quiet_os_path_exists quiet_os_path_isfile
  quiet_os_path_islink quiet_open_rb : quiet.

(** ** Loops *)

Lemma for_each_cons {A} (a : A) (l : list A) (body : A → M unit) (w : World) :
  for_each (a :: l) body w =
  match result (body a w) with
  | Ok _ =>
      let r := for_each l body (world (body a w)) in
      mkRun (result r) (world r) (output (body a w) ++ output r)
  | Raise e => mkRun (Raise e) (world (body a w)) (output (body a w))
  end.
Proof. done. Qed.

(** A property of the world that every turn of a loop keeps holds when the
    loop ends, whether it ends normally or by an exception. *)
Lemma for_each_invariant {A} (I : World → Prop) (l : list A)
  (body : A → M unit) (w0 : World) :
  I w0 →
  (∀ a w, a ∈ l → I w → I (world (body a w))) →
  I (world (for_each l body w0)).
Proof.
  revert w0. induction l as [|a l IH]; intros w0 H0 Hstep; [done|].
  rewrite for_each_cons.
  assert (I (world (body a w0))) as H1 by (apply Hstep; [left|done]).
  destruct (result (body a w0)); simpl; [|done].
  apply IH; [done|]. intros b w Hb. apply Hstep. by right.
Qed.

(** A loop completes when every turn does. *)
Lemma for_each_completes {A} (I : World → Prop) (l : list A)
  (body : A → M unit) (w0 : World) :
  I w0 →
  (∀ a w, a ∈ l → I w → result (body a w) = Ok () ∧ I (world (body a w))) →
  result (for_each l body w0) = Ok ().
Proof.
  revert w0. induction l as [|a l IH]; intros w0 H0 Hstep; [done|].
  rewrite for_each_cons.
  destruct (Hstep a w0) as [-> H1]; [left|done|]. simpl.
  apply IH; [done|]. intros b w Hb. apply Hstep. by right.
Qed.

(** Every event of a loop comes from one turn, taken in the world that the
    turns before it left. *)
Lemma for_each_output_elem {A} (l : list A) (body : A → M unit)
  (w0 : World) (ev : Event) :
  ev ∈ output (for_each l body w0) →
  ∃ before a after,
    l = before ++ a :: after ∧
    result (for_each before body w0) = Ok () ∧
    ev ∈ output (body a (world (for_each before body w0))).
Proof.
  revert w0. induction l as [|a l IH]; intros w0; [by intros ?%elem_of_nil|].
  rewrite for_each_cons. destruct (result (body a w0)) as [[]|e] eqn:Hr; simpl.
  - rewrite elem_of_app. intros [Hev|Hev].
    + by exists [], a, l.
    + destruct (IH _ Hev) as (before & b & after & -> & Hres & Hin).
      exists (a :: before), b, after. rewrite for_each_cons, Hr. by simpl.
  - intros Hev. by exists [], a, l.
Qed.


(** Every turn before the end of a completed loop is taken. *)
Lemma for_each_turn {A} (before after : list A) (a : A) (body : A → M unit)
  (w0 : World) :
  result (for_each before body w0) = Ok () →
  ∃ out',
    output (for_each (before ++ a :: after) body w0) =
    output (for_each before body w0) ++
    output (body a (world (for_each before body w0))) ++ out'.
Proof.
  revert w0. induction before as [|b before IH]; intros w0; cbn [app].
  - intros _. rewrite for_each_cons. cbn [for_each].
    destruct (result (body a w0)); simpl; [by eexists|].
    exists []. by rewrite app_nil_r.
  - rewrite !for_each_cons. destruct (result (body b w0)); [|done]. simpl.
    intros Hres. destruct (IH _ Hres) as [out' ->]. exists out'.
    by rewrite !(assoc_L (++)).
Qed.

(** A property that every completed turn keeps holds after a completed
    loop. *)
Lemma for_each_invariant_Ok {A} (I : World → Prop) (l : list A)
  (body : A → M unit) (w0 : World) :
  I w0 →
  (∀ a w, a ∈ l → I w → result (body a w) = Ok () → I (world (body a w))) →
  result (for_each l body w0) = Ok () →
  I (world (for_each l body w0)).
Proof.
  revert w0. induction l as [|a l IH]; intros w0 H0 Hstep; [done|].
  rewrite for_each_cons.
  destruct (result (body a w0)) as [[]|e] eqn:Hres; simpl; [|done].
  apply IH.
  - apply Hstep; [by left|done|done].
  - intros b w Hb. apply Hstep. by right.
Qed.

Lemma for_each_prefix_Ok {A} (before after : list A) (body : A → M unit)
  (w0 : World) :
  result (for_each (before ++ after) body w0) = Ok () →
  result (for_each before body w0) = Ok ().
Proof.
  revert w0. induction before as [|a l IH]; intros w0; [done|].
  cbn [app]. rewrite !for_each_cons.
  destruct (result (body a w0)); simpl; [apply IH|done].
Qed.




(** An invariant of the world and a property of every event, together. *)
Lemma for_each_invariant_Forall {A} (I : World → Prop) (Q : Event → Prop)
  (l : list A) (body : A → M unit) (w0 : World) :
  I w0 →
  (∀ a w, a ∈ l → I w →
          I (world (body a w)) ∧ Forall Q (output (body a w))) →
  I (world (for_each l body w0)) ∧ Forall Q (output (for_each l body w0)).
Proof.
  revert w0. induction l as [|a l IH]; intros w0 H0 Hstep; [by split|].
  rewrite for_each_cons.
  destruct (Hstep a w0) as [H1 Ho]; [by left|done|].
  destruct (result (body a w0)); simpl; [|done].
  destruct (IH (world (body a w0))) as [H2 Ho']; [done| |].
  { intros b w Hb. apply Hstep. by right. }
  split; [done|]. by apply Forall_app.
Qed.

Lemma for_each_app {A} (l1 l2 : list A) (body : A → M unit) (w : World) :
  result (for_each l1 body w) = Ok () →
  for_each (l1 ++ l2) body w =
  mkRun (result (for_each l2 body (world (for_each l1 body w))))
        (world (for_each l2 body (world (for_each l1 body w))))
        (output (for_each l1 body w) ++
         output (for_each l2 body (world (for_each l1 body w)))).
Proof.
  revert w. induction l1 as [|a l1 IH]; intros w.
  - intros _. cbn [app].
    change (for_each [] body w) with (mkRun (Ok ()) w []).
    cbn [world output app]. apply Run_eta.
  - cbn [app]. rewrite !for_each_cons.
    destruct (result (body a w)); [|done]. cbn [result world output].
    intros Hres. rewrite (IH _ Hres). cbn [result world output].
    by rewrite (assoc_L (++)).
Qed.

(** A property that every turn keeps, given an invariant of the turns that
    complete, holds where the loop ends. *)
Lemma for_each_invariant_final {A} (I Q : World → Prop) (l : list A)
  (body : A → M unit) (w0 : World) :
  I w0 → Q w0 →
  (∀ a w, a ∈ l → I w → Q w →
          (result (body a w) = Ok () → I (world (body a w))) ∧
          Q (world (body a w))) →
  Q (world (for_each l body w0)).
Proof.
  revert w0. induction l as [|a l IH]; intros w0 HI HQ Hstep; [done|].
  rewrite for_each_cons.
  destruct (Hstep a w0) as [HI' HQ']; [by left|done|done|].
  destruct (result (body a w0)) as [[]|e]; cbn [world]; [|done].
  apply IH; [by apply HI'|done|]. intros b w Hb. apply Hstep. by right.
Qed.

Lemma for_each_app_bind {A} (l1 l2 : list A) (body : A → M unit) (w : World) :
  for_each (l1 ++ l2) body w = (for_each l1 body;; for_each l2 body) w.
Proof.
  revert w. induction l1 as [|a l1 IH]; intros w.
  - cbn [app]. unfold mbind, M_bind. cbn [for_each mret M_ret result world output].
    by rewrite app_nil_l, <- Run_eta.
  - cbn [app]. rewrite for_each_cons. unfold mbind at 1, M_bind at 1.
    rewrite for_each_cons.
    destruct (result (body a w)) as [[]|e]; cbn [result world output]; [|done].
    rewrite IH. unfold mbind, M_bind.
    destruct (result (for_each l1 body (world (body a w)))) as [[]|e];
      cbn [result world output]; [|done].
    by rewrite (assoc_L (++)).
Qed.

Lemma for_each_fmap {A B} (f : A → B) (l : list A) (body : B → M unit)
  (w : World) :
  for_each (f <$> l) body w = for_each l (λ a, body (f a)) w.
Proof.
  revert w. induction l as [|a l IH]; intros w; [done|].
  rewrite fmap_cons, !for_each_cons.
  destruct (result (body (f a) w)); [|done]. by rewrite IH.
Qed.

Lemma for_each_concat {A B} (f : A → list B) (l : list A) (body : B → M unit)
  (w : World) :
  for_each l (λ a, for_each (f a) body) w =
  for_each (List.concat (f <$> l)) body w.
Proof.
  revert w. induction l as [|a l IH]; intros w; [done|].
  rewrite fmap_cons. cbn [List.concat]. rewrite for_each_app_bind.
  cbn [for_each]. unfold mbind, M_bind.
  destruct (result (for_each (f a) body w)); [|done]. by rewrite IH.
Qed.

Lemma for_each_ext {A} (l : list A) (body body' : A → M unit) (w : World) :
  (∀ a w, body a w = body' a w) → for_each l body w = for_each l body' w.
Proof.
  intros Hext. revert w. induction l as [|a l IH]; intros w; [done|].
  rewrite !for_each_cons, Hext.
  destruct (result (body' a w)); [|done]. by rewrite IH.
Qed.

Lemma for_each_with_cons {A S} (a : A) (l : list A) (s : S)
  (body : A → S → M S) (w : World) :
  for_each_with (a :: l) s body w =
  match result (body a s w) with
  | Ok s' =>
      let r := for_each_with l s' body (world (body a s w)) in
      mkRun (result r) (world r) (output (body a s w) ++ output r)
  | Raise e => mkRun (Raise e) (world (body a s w)) (output (body a s w))
  end.
Proof. done. Qed.

Lemma for_each_with_app {A S} (l1 l2 : list A) (s s1 : S)
  (body : A → S → M S) (w w1 : World) (out1 : list Event) :
  for_each_with l1 s body w = mkRun (Ok s1) w1 out1 →
  for_each_with (l1 ++ l2) s body w =
  mkRun (result (for_each_with l2 s1 body w1))
        (world (for_each_with l2 s1 body w1))
        (out1 ++ output (for_each_with l2 s1 body w1)).
Proof.
  revert s w out1. induction l1 as [|a l1 IH]; intros s w out1.
  - intros [= -> -> <-]. cbn [app]. apply Run_eta.
  - cbn [app]. rewrite !for_each_with_cons.
    destruct (result (body a s w)) as [s'|e]; [|done]. cbn zeta.
    destruct (for_each_with l1 s' body (world (body a s w)))
      as [res w' out'] eqn:Hrest.
    cbn [result world output]. intros [= -> -> <-].
    rewrite (IH _ _ _ Hrest). cbn [result world output].
    by rewrite (assoc_L (++)).
Qed.

Lemma for_each_print {A} (f : A → string) (l : list A) (w : World) :
  for_each l (λ y, print (f y)) w =
  mkRun (Ok ()) w ((λ y, Print (f y)) <$> l).
Proof.
  induction l as [|a l IH]; [done|].
  rewrite for_each_cons. cbn [print emit result world output].
  by rewrite IH.
Qed.

(** ** Lists *)



Lemma filter_all {A} (P : A → Prop) `{!∀ x, Decision (P x)} (l : list A) :
  (∀ x, x ∈ l → P x) → filter P l = l.
Proof.
  induction l as [|a l IH]; intros Hall; [done|].
  rewrite filter_cons_True by (apply Hall; by left).
  f_equal. apply IH. intros x Hx. apply Hall. by right.
Qed.

Lemma filter_ext_in {A} (P Q : A → Prop) `{!∀ x, Decision (P x)}
  `{!∀ x, Decision (Q x)} (l : list A) :
  (∀ x, x ∈ l → P x ↔ Q x) → filter P l = filter Q l.
Proof.
  induction l as [|a l IH]; intros Hall; [done|].
  rewrite !filter_cons.
  assert (P a ↔ Q a) as Ha by (apply Hall; by left).
  rewrite IH by (intros x Hx; apply Hall; by right).
  destruct (decide (P a)), (decide (Q a)); tauto.
Qed.

Lemma printed_app (a b : list Event) :
  printed (a ++ b) = printed a ++ printed b.
Proof. apply omap_app. Qed.

Lemma printed_warning (out : list Event) :
  Forall warning out → printed out = [].
Proof.
  induction 1 as [|ev out [m ->] _ IH]; [done|]. by cbn.
Qed.

Lemma warning_report (out : list Event) :
  Forall warning out → Forall report out.
Proof. intros Hw. eapply Forall_impl; [done|]. by intros ev [m ->]. Qed.

Lemma decisions_app (a b : list Event) :
  decisions (a ++ b) = decisions a ++ decisions b.
Proof. apply filter_app. Qed.

Lemma decisions_cons (e : Event) (out : list Event) :
  decisions (e :: out) =
  if decision e then e :: decisions out else decisions out.
Proof.
  unfold decisions. rewrite filter_cons.
  by destruct (decision e); [rewrite decide_True|rewrite decide_False].
Qed.

Lemma printed_decisions (out : list Event) :
  printed (decisions out) = printed out.
Proof.
  induction out as [|e out IH]; [done|].
  rewrite decisions_cons.
  destruct e as [line|m|p h|h p|p|p]; cbn [decision].
  - change (line :: printed (decisions out) = line :: printed out).
    by rewrite IH.
  - change (printed (Warning m :: out)) with (printed out).
    destruct (negb _); [|done].
    by change (printed (Warning m :: decisions out)) with
      (printed (decisions out)).
  - done.
  - done.
  - done.
  - done.
Qed.

(** Two loops over the same list whose turns report the same decisions,
    from worlds that stay related, report the same decisions. *)
Lemma for_each_decisions {A} (R : World → World → Prop) (l : list A)
  (body1 body2 : A → M unit) (w1 w2 : World) :
  R w1 w2 →
  (∀ a v1 v2, a ∈ l → R v1 v2 →
     result (body1 a v1) = Ok () ∧ result (body2 a v2) = Ok () ∧
     R (world (body1 a v1)) (world (body2 a v2)) ∧
     decisions (output (body1 a v1)) = decisions (output (body2 a v2))) →
  decisions (output (for_each l body1 w1)) =
  decisions (output (for_each l body2 w2)).
Proof.
  revert w1 w2. induction l as [|a l IH]; intros w1 w2 HR Hstep; [done|].
  rewrite !for_each_cons.
  destruct (Hstep a w1 w2) as (-> & -> & HR' & Hp); [by left|done|].
  cbn [output]. rewrite !decisions_app, Hp. f_equal.
  apply IH; [done|]. intros b v1 v2 Hb. apply Hstep. by right.
Qed.

Lemma NoDup_fmap_filter {A B} (f : A → B) (P : A → Prop)
  `{!∀ x, Decision (P x)} (l : list A) :
  NoDup (f <$> l) → NoDup (f <$> filter P l).
Proof.
  induction l as [|a l IH]; [done|]. rewrite fmap_cons.
  intros [Ha Hnd]%NoDup_cons. rewrite filter_cons.
  destruct (decide (P a)); [|by apply IH].
  rewrite fmap_cons. apply NoDup_cons. split; [|by apply IH].
  intros (y & Hy & [_ Hin]%list_elem_of_filter)%list_elem_of_fmap.
  apply Ha. rewrite Hy. by apply list_elem_of_fmap_2.
Qed.

Lemma filter_shorter {A} (P : A → Prop) `{∀ x, Decision (P x)} (l : list A) :
  (List.length (filter P l) < List.length l)%nat → ∃ y, y ∈ l ∧ ¬ P y.
Proof.
  induction l as [|x l IH]; simpl; [lia|].
  rewrite filter_cons. destruct (decide (P x)) as [Hx|Hx].
  - simpl. intros Hlt. destruct IH as (y & Hy & HP); [lia|].
    exists y. split; [by right|done].
  - intros _. exists x. split; [by left|done].
Qed.

Lemma fmap_filter_fixed {A} (f : A → A) (P : A → Prop)
  `{!∀ x, Decision (P x)} (l : list A) :
  (∀ x, x ∈ l → P x ∧ f x = x) → f <$> filter P l = l.
Proof.
  induction l as [|a l IH]; intros Hall; [done|].
  destruct (Hall a) as [Ha Hfa]; [by left|].
  rewrite filter_cons_True, fmap_cons, Hfa by done.
  f_equal. apply IH. intros x Hx. apply Hall. by right.
Qed.

Lemma fmap_fixed {A} (f : A → A) (l : list A) :
  (∀ x, x ∈ l → f x = x) → f <$> l = l.
Proof.
  induction l as [|a l IH]; intros Hall; [done|].
  rewrite fmap_cons, Hall by (by left).
  f_equal. apply IH. intros x Hx. apply Hall. by right.
Qed.

Lemma filter_none {A} (P : A → Prop) `{!∀ x, Decision (P x)} (l : list A) :
  (∀ x, x ∈ l → ¬ P x) → filter P l = [].
Proof.
  induction l as [|a l IH]; intros Hall; [done|].
  rewrite filter_cons_False by (apply Hall; by left).
  apply IH. intros x Hx. apply Hall. by right.
Qed.

(** Case analysis of membership in a list that is written out. *)
Ltac inv_elem H :=
  repeat match type of H with
         | _ ∈ _ :: _ => apply elem_of_cons in H as [H|H]
         | _ ∈ [] => by apply elem_of_nil in H
         | _ ∈ _ ++ _ => apply elem_of_app in H as [H|H]
         end.

(** ** The order of [order by] *)

Lemma leb_trans (a b c : string) :
  String.leb a b = true → String.leb b c = true → String.leb a c = true.
Proof.
  unfold String.leb. revert b c.
  induction a as [|x a IH]; intros [|y b] [|z c]; simpl; try done.
  unfold Ascii.compare.
  destruct (N.compare_spec (N_of_ascii x) (N_of_ascii y)) as [Hxy|Hxy|Hxy],
           (N.compare_spec (N_of_ascii y) (N_of_ascii z)) as [Hyz|Hyz|Hyz],
           (N.compare_spec (N_of_ascii x) (N_of_ascii z)) as [Hxz|Hxz|Hxz];
    try done; try lia.
  apply IH.
Qed.

Lemma sql_le_total (a b : option string) :
  sql_le a b = true ∨ sql_le b a = true.
Proof. destruct a, b; simpl; auto using String.leb_total. Qed.

Lemma sql_le_refl (a : option string) : sql_le a a = true.
Proof. by destruct (sql_le_total a a). Qed.

Lemma sql_le_trans (a b c : option string) :
  sql_le a b = true → sql_le b c = true → sql_le a c = true.
Proof. destruct a, b, c; simpl; try done. apply leb_trans. Qed.

Lemma sql_le_antisym (a b : option string) :
  sql_le a b = true → sql_le b a = true → a = b.
Proof.
  destruct a, b; simpl; try done. intros. f_equal. by apply String.leb_antisym.
Qed.

Section order_by.
Context (key : Row → option string).

Lemma insert_by_sorted (r : Row) (l : list Row) :
  StronglySorted (key_le key) l → StronglySorted (key_le key) (insert_by key r l).
Proof.
  induction 1 as [|x l Hl IH Hx]; simpl; [by repeat constructor|].
  destruct (sql_le (key x) (key r)) eqn:Hle.
  - constructor; [done|]. apply Forall_forall. intros y Hy.
    apply elem_of_insert_by in Hy as [->|Hy]; [done|].
    rewrite Forall_forall in Hx. by apply Hx.
  - assert ((key_le key) r x) as Hrx.
    { by destruct (sql_le_total (key r) (key x)) as [?|?]; [|congruence]. }
    constructor; [by constructor|]. constructor; [done|].
    eapply Forall_impl; [done|]. intros y Hy. by eapply sql_le_trans.
Qed.

(** [order by] sorts. *)
Lemma order_by_sorted (l : list Row) : StronglySorted (key_le key) (order_by key l).
Proof.
  unfold order_by.
  enough (∀ acc, StronglySorted (key_le key) acc →
                 StronglySorted (key_le key)
                   (foldl (λ acc r, insert_by key r acc) acc l)) as Hgen
    by (apply Hgen; constructor).
  induction l as [|r l IH]; intros acc Hacc; simpl; [done|].
  apply IH. by apply insert_by_sorted.
Qed.

Lemma insert_by_filter (h : option string) (r : Row) (l : list Row) :
  StronglySorted (key_le key) l →
  filter (λ x, key x = h) (insert_by key r l) =
  filter (λ x, key x = h) l ++ filter (λ x, key x = h) [r].
Proof.
  induction 1 as [|x l Hl IH Hx]; simpl; [done|].
  destruct (sql_le (key x) (key r)) eqn:Hle.
  - rewrite !filter_cons, IH. by destruct (decide (key x = h)).
  - rewrite (filter_cons _ r).
    destruct (decide (key r = h)) as [Hr|Hr].
    2:{ rewrite (filter_cons_False _ r []) by done. by rewrite app_nil_r. }
    rewrite (filter_cons_True _ r []) by done.
    rewrite (filter_none _ (x :: l)); [done|].
    intros y Hy Hkey.
    assert (sql_le (key x) (key y) = true) as Hxy.
    { apply elem_of_cons in Hy as [->|Hy]; [apply sql_le_refl|].
      rewrite Forall_forall in Hx. by apply Hx. }
    congruence.
Qed.

(** [order by] keeps the rows of one key in the order of the table. *)
Lemma order_by_stable (h : option string) (l : list Row) :
  filter (λ x, key x = h) (order_by key l) = filter (λ x, key x = h) l.
Proof.
  unfold order_by.
  enough (∀ acc, StronglySorted (key_le key) acc →
                 filter (λ x, key x = h)
                   (foldl (λ acc r, insert_by key r acc) acc l) =
                 filter (λ x, key x = h) acc ++ filter (λ x, key x = h) l)
    as Hgen by (apply Hgen; constructor).
  induction l as [|r l IH]; intros acc Hacc; simpl.
  - by rewrite app_nil_r.
  - rewrite IH by (by apply insert_by_sorted).
    rewrite insert_by_filter by done.
    by rewrite <- (assoc_L (++)), <- filter_app.
Qed.

(** In a sorted list the rows of one key stand together, after the rows
    of the keys before it and before the rows of the keys after it. *)
Lemma sorted_group (h : option string) (l : list Row) :
  StronglySorted (key_le key) l →
  ∃ before after,
    l = before ++ filter (λ x, key x = h) l ++ after ∧
    Forall (λ x, key x ≠ h ∧ sql_le (key x) h = true) before ∧
    Forall (λ x, sql_le (key x) h = false) after.
Proof.
  induction 1 as [|x l Hl (before & after & Hsplit & Hb & Ha) Hx].
  { by exists [], []. }
  rewrite Forall_forall in Hx. rewrite filter_cons.
  destruct (decide (key x = h)) as [Hk|Hk].
  - destruct before as [|y before].
    + exists [], after. simpl in *. by rewrite <- Hsplit.
    + apply Forall_cons in Hb as [[Hne Hle] _]. destruct Hne.
      apply sql_le_antisym; [done|]. rewrite <- Hk. apply Hx.
      rewrite Hsplit. by left.
  - destruct (sql_le (key x) h) eqn:Hle.
    + exists (x :: before), after. simpl. rewrite <- Hsplit.
      split_and!; [done| |done]. by constructor.
    + assert (∀ y, y ∈ l → sql_le (key y) h = false) as Hall.
      { intros y Hy. destruct (sql_le (key y) h) eqn:Hyh; [|done].
        rewrite <- Hle. symmetry. eapply sql_le_trans; [|done]. by apply Hx. }
      exists [], (x :: l). rewrite filter_none.
      * split_and!; [done|done|]. constructor; [done|].
        apply Forall_forall, Hall.
      * intros y Hy Hkey. specialize (Hall y Hy).
        rewrite Hkey, sql_le_refl in Hall. done.
Qed.

End order_by.

(** ** Reading a file *)

Lemma BLOCKSIZE_pos : 0 < BLOCKSIZE.
Proof. unfold BLOCKSIZE. lia. Qed.

(** Reading block by block feeds the hasher the whole file, whatever the
    block size. *)
Lemma read_loop_spec (n : nat) (hasher buf afile : list byte) :
  0 < n → (buf = [] → afile = []) →
  read_loop n hasher buf afile = hasher ++ buf ++ afile.
Proof.
  intros Hn. funelim (read_loop n hasher buf afile); intros Hbuf.
  - rewrite H; [|done|].
    + simpl. by rewrite take_drop, (assoc_L (++)).
    + simpl. destruct n; [lia|]. destruct afile; [done|]. by simpl.
  - destruct buf; [|simpl in *; lia]. rewrite Hbuf by done.
    by rewrite !app_nil_r.
Qed.

Lemma read_loop_whole (n : nat) (content : list byte) :
  0 < n →
  read_loop n [] (read n content).1 (read n content).2 = content.
Proof.
  intros Hn. rewrite read_loop_spec; [|done|].
  - simpl. apply take_drop.
  - simpl. destruct n; [lia|]. by destruct content.
Qed.

(** X4. The loop of [HashFile] gives the hasher every byte of the file,
    once and in order, whatever the size of the blocks it reads. *)
Theorem read_loop_block_size (n : nat) (hasher afile : list byte) :
  0 < n →
  read_loop n hasher (read n afile).1 (read n afile).2 = hasher ++ afile.
Proof.
  intros Hn. rewrite read_loop_spec; [|done|].
  - simpl. by rewrite take_drop.
  - simpl. destruct n; [lia|]. by destruct afile.
Qed.

#[local] Opaque BLOCKSIZE.

(** Runs the monad on the probes and reports it meets. *)
Create HintDb run.
#[global] Hint Unfold mbind M_bind mret M_ret os_path_islink os_path_isfile
  os_path_exists logging_warning print emit fetchall execute_delete
  execute_update : run.

Ltac run_simpl :=
  repeat (progress (autounfold with run; cbn [result world output negb orb])).

Section Properties.
Context `{Platform}.

(** ** HashFile *)

(** What [HashFile] does for each kind of path. *)
Lemma HashFile_spec (theFile : string) (w : World) :
  HashFile theFile w =
  match resolve (fs w !! theFile) with
  | None =>
      mkRun (Ok None) w [Warning ("File " +:+ theFile +:+ " no longer exists")]
  | Some (RegularFile content true) =>
      mkRun (Ok (Some (sha256_hexdigest content))) w []
  | Some (RegularFile _ false) =>
      mkRun (Ok None) w [Warning ("Unable to read " +:+ theFile)]
  | Some (Directory true) => mkRun (Raise (IsADirectoryError theFile)) w []
  | Some (Directory false) =>
      mkRun (Ok None) w [Warning ("Unable to read " +:+ theFile)]
  end.
Proof.
  unfold HashFile, mbind, M_bind, os_path_exists, try_except_PermissionError,
    open_rb.
  destruct (resolve (fs w !! theFile)) as [[content [|]|[|]]|] eqn:Hres; simpl;
    rewrite ?Hres; simpl; try done.
  pose proof (read_loop_whole BLOCKSIZE content BLOCKSIZE_pos) as Hw.
  simpl in Hw. by rewrite Hw.
Qed.

Lemma quiet_HashFile (theFile : string) : quiet (HashFile theFile).
Proof.
  intros w. rewrite HashFile_spec.
  destruct (resolve (fs w !! theFile)) as [[content [|]|[|]]|]; simpl;
    (split; [done|]); by repeat constructor.
Qed.

Lemma HashFile_world (theFile : string) (w : World) :
  world (HashFile theFile w) = w.
Proof. apply quiet_HashFile. Qed.

(** [HashFile] looks at the file system only. *)
Lemma HashFile_fs (theFile : string) (w w' : World) :
  fs w = fs w' →
  result (HashFile theFile w) = result (HashFile theFile w') ∧
  output (HashFile theFile w) = output (HashFile theFile w').
Proof.
  intros Hfs. rewrite !HashFile_spec, Hfs.
  by destruct (resolve (fs w' !! theFile)) as [[content [|]|[|]]|].
Qed.

(** [HashFile] returns but for a directory that may be read. *)
Lemma HashFile_completes (p : string) (w : World) :
  completes (HashFile p w) ↔ resolve (fs w !! p) ≠ Some (Directory true).
Proof.
  unfold completes. rewrite HashFile_spec.
  destruct (resolve (fs w !! p)) as [[content [|]|[|]]|]; cbn [result];
    split; try done; try (intros _; by eexists).
  by intros [a ?].
Qed.

(** C8 (amended). The hasher: [HashFile] changes nothing and logs warnings
    only; it returns [None] exactly when the path does not exist, a
    dangling link included, or reading it is denied, be it a regular file
    or a directory; for a readable regular file it returns the digest of
    the whole content, which it reads block by block; for a directory that
    may be read it raises [IsADirectoryError]. *)
Theorem HashFile_contract (theFile : string) (w : World) :
  world (HashFile theFile w) = w ∧
  Forall warning (output (HashFile theFile w)) ∧
  result (HashFile theFile w) =
  match resolve (fs w !! theFile) with
  | Some (RegularFile content true) => Ok (Some (sha256_hexdigest content))
  | Some (RegularFile _ false) => Ok None
  | Some (Directory true) => Raise (IsADirectoryError theFile)
  | Some (Directory false) => Ok None
  | None => Ok None
  end ∧
  (result (HashFile theFile w) = Ok None ↔
   match resolve (fs w !! theFile) with
   | Some (RegularFile _ readable) | Some (Directory readable) =>
       readable = false
   | None => True
   end).
Proof.
  rewrite HashFile_spec.
  destruct (resolve (fs w !! theFile)) as [[content [|]|[|]]|]; simpl;
    split_and!; try done; repeat constructor; by eexists.
Qed.

(** ** Database.write *)

Lemma write_eq (theHash : option string) (thePath : string) (w : World) :
  write theHash thePath w =
  match select_where_path thePath (files w) with
  | [] =>
      mkRun (Ok ()) (mkWorld (files w ++ [mkRow thePath theHash]) (fs w))
            [SqlInsert thePath theHash]
  | first :: others =>
      let sanity :=
        if bool_decide (1 < List.length (first :: others)) then
          [Warning ("Santity check failure.  Multiple database enties for "
                    +:+ thePath)]
        else [] in
      if bool_decide (hash first ≠ theHash) then
        mkRun (Ok ())
              (mkWorld (update_hash_where_path theHash thePath (files w))
                       (fs w))
              (sanity ++ [Warning ("Hash changed for " +:+ thePath);
                          SqlUpdate theHash thePath])
      else mkRun (Ok ()) w sanity
  end.
Proof.
  unfold write. run_simpl.
  destruct (select_where_path thePath (files w)) as [|first others]; [done|].
  run_simpl. unfold execute_insert.
  case_bool_decide; run_simpl; case_bool_decide; run_simpl;
    by rewrite ?app_nil_r.
Qed.

(** [write] keeps the table at one record per path, and after it the
    path has the hash written. *)
Lemma write_NoDup (theHash : option string) (thePath : string) (w : World) :
  NoDup (path <$> files w) →
  NoDup (path <$> files (world (write theHash thePath w))) ∧
  select_where_path thePath (files (world (write theHash thePath w))) =
    [mkRow thePath theHash].
Proof.
  intros Hnd. rewrite write_eq.
  pose proof (select_where_path_NoDup thePath (files w) Hnd) as Hlen.
  destruct (select_where_path thePath (files w)) as [|first [|second others]]
    eqn:Hsel; [| |simpl in Hlen; lia].
  - cbn [world files]. split.
    + rewrite fmap_app. apply NoDup_app. split_and!; [done| |].
      * intros x (r & -> & Hr)%list_elem_of_fmap Hx.
        apply list_elem_of_singleton in Hx. cbn in Hx.
        assert (r ∈ select_where_path thePath (files w)) as Hin
          by by apply list_elem_of_filter.
        rewrite Hsel in Hin. by apply elem_of_nil in Hin.
      * apply NoDup_singleton.
    + unfold select_where_path in *. rewrite filter_app, Hsel.
      by rewrite filter_cons_True.
  - cbn zeta. case_bool_decide as Hne; cbn [world files].
    + split; [by rewrite update_hash_paths|].
      by rewrite select_where_path_update, Hsel.
    + split; [done|]. rewrite Hsel. f_equal.
      assert (first ∈ select_where_path thePath (files w)) as Hin
        by (rewrite Hsel; by left).
      apply list_elem_of_filter in Hin as [Hp _].
      destruct first as [p h]. simpl in *. congruence.
Qed.

(** [write] leaves the file system and the records of the other paths as
    they are. *)
Lemma write_frame (theHash : option string) (thePath : string) (w : World)
  (q : string) :
  result (write theHash thePath w) = Ok () ∧
  fs (world (write theHash thePath w)) = fs w ∧
  (q ≠ thePath →
   select_where_path q (files (world (write theHash thePath w))) =
   select_where_path q (files w)).
Proof.
  rewrite write_eq.
  destruct (select_where_path thePath (files w)) as [|first others];
    cbn zeta; [|case_bool_decide]; cbn [result world files fs];
    split_and!; try done; intros Hne.
  - unfold select_where_path. rewrite filter_app, filter_cons_False by done.
    by rewrite filter_nil, app_nil_r.
  - by apply select_where_path_other.
Qed.

(** X5. In a table with one record per path, [write] completes, keeps one
    record per path, leaves the path with one record that has the hash
    written, and changes neither the records of the other paths nor the
    file system. *)
Theorem write_records (theHash : option string) (thePath : string)
  (w : World) :
  NoDup (path <$> files w) →
  let w' := world (write theHash thePath w) in
  result (write theHash thePath w) = Ok () ∧
  NoDup (path <$> files w') ∧
  select_where_path thePath (files w') = [mkRow thePath theHash] ∧
  (∀ q, q ≠ thePath →
        select_where_path q (files w') = select_where_path q (files w)) ∧
  fs w' = fs w.
Proof.
  intros Hnd. cbn zeta.
  destruct (write_NoDup theHash thePath w Hnd) as [Hnd' Hsel].
  split_and!; try done; try apply (write_frame theHash thePath w thePath).
  intros q. apply write_frame.
Qed.

(** X6. [write] twice is [write] once: the second call finds the record as it
    wrote it, changes nothing and logs nothing. *)
Lemma write_idempotent (theHash : option string) (thePath : string)
  (w : World) :
  NoDup (path <$> files w) →
  write theHash thePath (world (write theHash thePath w)) =
  mkRun (Ok ()) (world (write theHash thePath w)) [].
Proof.
  intros Hnd. destruct (write_NoDup theHash thePath w Hnd) as [_ Hsel].
  rewrite (write_eq theHash thePath (world _)), Hsel. cbn zeta.
  rewrite bool_decide_eq_false_2 by (by intros ?).
  by rewrite bool_decide_eq_false_2 by (simpl; lia).
Qed.

(** ** Database.DupCheck *)

Lemma DupCheck_body_silent (r : Row) (old : option string)
  (pathList : list string) (w : World) :
  old = hash r ∨ (List.length pathList ≤ 1)%nat →
  ∃ pathList',
    DupCheck_body r (old, pathList) w = mkRun (Ok (hash r, pathList')) w [].
Proof.
  intros Hstate. unfold DupCheck_body.
  case_bool_decide as Hne.
  - destruct Hstate as [?|Hlen]; [done|].
    rewrite bool_decide_eq_false_2 by lia. by eexists.
  - rewrite Hne. by eexists.
Qed.

Lemma DupCheck_loop_silent (rows : list Row) (h old : option string)
  (pathList : list string) (w : World) :
  (∀ r, r ∈ rows → hash r = h) →
  old = h ∨ (List.length pathList ≤ 1)%nat →
  ∃ s, for_each_with rows (old, pathList) DupCheck_body w = mkRun (Ok s) w [].
Proof.
  revert old pathList.
  induction rows as [|r rows IH]; intros old pathList Hall Hstate;
    [by eexists|].
  cbn [for_each_with].
  destruct (DupCheck_body_silent r old pathList w) as [pathList' Hbody].
  { rewrite (Hall r) by (by left). done. }
  destruct (IH (hash r) pathList') as [s Hs].
  { intros x Hx. apply Hall. by right. }
  { left. apply Hall. by left. }
  exists s. unfold mbind, M_bind. rewrite Hbody. cbn [result world output].
  by rewrite Hs.
Qed.

(** C3. [DupCheck] prints a group when it meets the first record of the
    next one, and nothing after the last record: when all the records of
    the table have one digest, however many they are, it prints nothing. *)
Theorem DupCheck_single_digest_silent (w : World) (h : option string) :
  (∀ r, r ∈ files w → hash r = h) →
  result (DupCheck w) = Ok () ∧ printed (output (DupCheck w)) = [] ∧
  output (DupCheck w) = [].
Proof.
  intros Hall. unfold DupCheck, mbind, M_bind, fetchall.
  cbn [result world output].
  destruct (DupCheck_loop_silent (order_by hash (files w)) h (Some "") [] w)
    as [s Hs].
  { intros r Hr. apply Hall. by apply elem_of_order_by in Hr. }
  { right. simpl. lia. }
  rewrite Hs. by cbn.
Qed.

Lemma DupCheck_body_eq (r : Row) (old : option string)
  (pathList : list string) (w : World) :
  DupCheck_body r (old, pathList) w =
  if bool_decide (old ≠ hash r) then
    mkRun (Ok (hash r, [path r])) w
          (if bool_decide (1 < List.length pathList)
           then group_report old pathList else [])
  else mkRun (Ok (old, pathList ++ [path r])) w [].
Proof.
  unfold DupCheck_body. case_bool_decide; [|done].
  case_bool_decide; [|done].
  unfold mbind, M_bind. cbn [print emit result world output].
  rewrite for_each_print. cbn [result world output].
  by rewrite app_nil_r.
Qed.

(** Records of the hash of the group at hand join the group. *)
Lemma DupCheck_run (g rest : list Row) (old : option string)
  (pathList : list string) (w : World) :
  Forall (λ x, hash x = old) g →
  for_each_with (g ++ rest) (old, pathList) DupCheck_body w =
  for_each_with rest (old, pathList ++ (path <$> g)) DupCheck_body w.
Proof.
  revert pathList. induction g as [|x g IH]; intros pathList Hg.
  - by rewrite fmap_nil, app_nil_r.
  - apply Forall_cons in Hg as [Hx Hg]. cbn [app].
    rewrite for_each_with_cons, DupCheck_body_eq.
    rewrite bool_decide_eq_false_2 by (by intros ?).
    cbn [result world output app]. rewrite <- Run_eta, IH by done.
    by rewrite fmap_cons, <- (assoc_L (++)).
Qed.

(** The loop of [DupCheck] ends with the hash of the last record, leaves
    the world as it is and raises nothing. *)
Lemma DupCheck_loop_total (rows : list Row) (s : option string * list string)
  (w : World) :
  ∃ s' out,
    for_each_with rows s DupCheck_body w = mkRun (Ok s') w out ∧
    (rows = [] → s' = s) ∧
    (∀ x, last rows = Some x → s'.1 = hash x).
Proof.
  revert s. induction rows as [|r rows IH]; intros [old pathList].
  - exists (old, pathList), []. by split_and!.
  - rewrite for_each_with_cons, DupCheck_body_eq.
    set (s1 := if bool_decide (old ≠ hash r) then (hash r, [path r])
               else (old, pathList ++ [path r])).
    assert (s1.1 = hash r) as Hs1.
    { subst s1. case_bool_decide as Hne; [done|]. simpl.
      by destruct (decide (old = hash r)). }
    destruct (IH s1) as (s' & out & Hrun & Hnil & Hlast).
    subst s1. case_bool_decide; cbn [result world output];
      rewrite Hrun; cbn [result world output];
      eexists _, _; (split_and!; [done|done|]);
      intros x Hx; (destruct rows as [|r' rows];
        [injection Hx as <-; by rewrite Hnil|by apply Hlast]).
Qed.

(** The group that the loop has at hand after the first records of a
    hash. *)
Lemma DupCheck_enter_group (g rest : list Row) (h old : option string)
  (pathList : list string) (w : World) :
  Forall (λ x, hash x = h) g → g ≠ [] →
  old ≠ h ∨ (old = h ∧ pathList = []) →
  ∃ out,
    for_each_with (g ++ rest) (old, pathList) DupCheck_body w =
    mkRun (result (for_each_with rest (h, path <$> g) DupCheck_body w))
          (world (for_each_with rest (h, path <$> g) DupCheck_body w))
          (out ++ output (for_each_with rest (h, path <$> g) DupCheck_body w)).
Proof.
  intros Hg Hne [Hold|[-> ->]].
  - destruct g as [|x g]; [done|]. apply Forall_cons in Hg as [Hx Hg].
    cbn [app]. rewrite for_each_with_cons, DupCheck_body_eq, Hx.
    rewrite bool_decide_eq_true_2 by done. cbn [result world output].
    rewrite DupCheck_run by done. by eexists.
  - exists []. rewrite DupCheck_run by done. cbn [app]. apply Run_eta.
Qed.

(** A run of two records or more of one hash that the loop leaves for a
    record of another hash is reported. *)
Lemma DupCheck_loop_prints (before g after : list Row) (r : Row)
  (h : option string) (w : World) :
  (∀ x, last before = Some x → hash x ≠ h) →
  Forall (λ x, hash x = h) g → hash r ≠ h → (2 ≤ List.length g)%nat →
  ∃ pre post,
    output (for_each_with (before ++ g ++ r :: after) (Some "", [])
              DupCheck_body w) =
    pre ++ group_report h (path <$> g) ++ post.
Proof.
  intros Hlast Hg Hr Hlen.
  destruct (DupCheck_loop_total before (Some "", []) w)
    as ([old pathList] & outb & Hrunb & Hnil & Hold).
  rewrite (for_each_with_app _ _ _ _ _ _ _ _ Hrunb). cbn [output].
  destruct (DupCheck_enter_group g (r :: after) h old pathList w Hg)
    as [outg ->].
  { destruct g; [simpl in Hlen; lia|done]. }
  { destruct (decide (old = h)) as [->|?]; [right|by left].
    destruct before as [|b before _] using rev_ind.
    - by injection (Hnil eq_refl) as _ <-.
    - destruct (Hlast b); [by rewrite last_snoc|].
      symmetry. apply (Hold b). by rewrite last_snoc. }
  cbn [output]. rewrite for_each_with_cons, DupCheck_body_eq.
  rewrite bool_decide_eq_true_2 by done.
  rewrite bool_decide_eq_true_2 by (rewrite length_fmap; lia).
  cbn [result world output].
  exists (outb ++ outg), (output (for_each_with after (hash r, [path r])
                                    DupCheck_body w)).
  by rewrite <- !(assoc_L (++)).
Qed.

(** Every event of the loop is a line of the report of a run of two
    records or more of one hash that a record of another hash follows. *)
Lemma DupCheck_loop_sound (rest g : list Row) (old : option string)
  (w : World) (ev : Event) :
  Forall (λ x, hash x = old) g →
  ev ∈ output (for_each_with rest (old, path <$> g) DupCheck_body w) →
  ∃ h g' r before after,
    g ++ rest = before ++ g' ++ r :: after ∧
    Forall (λ x, hash x = h) g' ∧ hash r ≠ h ∧ (2 ≤ List.length g')%nat ∧
    ev ∈ group_report h (path <$> g').
Proof.
  revert g old. induction rest as [|r rest IH]; intros g old Hg.
  { by intros ?%elem_of_nil. }
  rewrite for_each_with_cons, DupCheck_body_eq.
  case_bool_decide as Hne; cbn [result world output].
  - rewrite elem_of_app. intros [Hev|Hev].
    + case_bool_decide as Hlen; [|by apply elem_of_nil in Hev].
      rewrite length_fmap in Hlen.
      exists old, g, r, [], rest. split_and!; try done; lia.
    + destruct (IH [r] (hash r)) as (h & g' & r' & before & after & Hsplit & ?);
        [by repeat constructor|done|].
      exists h, g', r', (g ++ before), after. split; [|done].
      rewrite <- (assoc_L (++)), <- Hsplit. done.
  - rewrite app_nil_l. intros Hev.
    destruct (IH (g ++ [r]) old) as (h & g' & r' & before & after & Hsplit & ?).
    + apply Forall_app. split; [done|]. by repeat constructor.
    + by rewrite fmap_app.
    + exists h, g', r', before, after. split; [|done].
      by rewrite <- Hsplit, <- (assoc_L (++)).
Qed.

Lemma DupCheck_eq (w : World) :
  DupCheck w =
  mkRun (Ok ()) w
        (output (for_each_with (order_by hash (files w)) (Some "", [])
                   DupCheck_body w)).
Proof.
  unfold DupCheck, mbind, M_bind, fetchall. cbn [result world output].
  destruct (DupCheck_loop_total (order_by hash (files w)) (Some "", []) w)
    as (s & out & -> & _). cbn [result world output mret M_ret].
  by rewrite app_nil_r.
Qed.

(** X7. [DupCheck] reports every digest that two records or more have, but
    for the digest that sorts last: the report of a group is the line of
    its digest and then the paths of all its records, in the order of the
    table. *)
Theorem DupCheck_reports (w : World) (h : option string) :
  let group := filter (λ r, hash r = h) (files w) in
  (2 ≤ List.length group)%nat →
  (∃ r, r ∈ files w ∧ sql_le (hash r) h = false) →
  ∃ pre post,
    output (DupCheck w) = pre ++ group_report h (path <$> group) ++ post.
Proof.
  cbn zeta. intros Hlen (r & Hr & Hafter). rewrite DupCheck_eq. cbn [output].
  destruct (sorted_group hash h (order_by hash (files w)))
    as (before & after & Hsplit & Hb & Ha); [apply order_by_sorted|].
  rewrite order_by_stable in Hsplit.
  destruct after as [|r' after].
  { apply elem_of_order_by with (key := hash) in Hr. rewrite Hsplit in Hr.
    rewrite app_nil_r in Hr. apply elem_of_app in Hr as [Hr|Hr].
    - rewrite Forall_forall in Hb. destruct (Hb r Hr). congruence.
    - apply list_elem_of_filter in Hr as [<- _].
      by rewrite sql_le_refl in Hafter. }
  apply Forall_cons in Ha as [Hr' _]. rewrite Hsplit.
  apply DupCheck_loop_prints; [| | |done].
  - intros x Hx. rewrite Forall_forall in Hb. apply Hb.
    by apply last_Some_elem_of.
  - apply Forall_forall. by intros x [? _]%list_elem_of_filter.
  - intros Heq. by rewrite Heq, sql_le_refl in Hr'.
Qed.

(** X8. [DupCheck] changes nothing and raises nothing, and every line it
    prints belongs to the report of a digest that two records or more
    have and that does not sort last. *)
Theorem DupCheck_reports_only (w : World) :
  result (DupCheck w) = Ok () ∧ world (DupCheck w) = w ∧
  ∀ ev, ev ∈ output (DupCheck w) →
    ∃ h,
      let group := filter (λ r, hash r = h) (files w) in
      (2 ≤ List.length group)%nat ∧
      (∃ r, r ∈ files w ∧ sql_le (hash r) h = false) ∧
      ev ∈ group_report h (path <$> group).
Proof.
  rewrite DupCheck_eq. cbn [result world output]. split_and!; [done|done|].
  intros ev Hev.
  apply (DupCheck_loop_sound _ [] (Some "")) in Hev
    as (h & g & r & before & after & Hsplit & Hg & Hr & Hlen & Hev);
    [|done].
  cbn [app] in Hsplit. rewrite Forall_forall in Hg.
  pose proof (order_by_sorted hash (files w)) as Hsorted.
  rewrite Hsplit, (assoc_L (++)) in Hsorted.
  assert (g ⊆ filter (λ r, hash r = h) (files w)) as Hsub.
  { intros x Hx. apply list_elem_of_filter. split; [by apply Hg|].
    apply (elem_of_order_by hash). rewrite Hsplit.
    apply elem_of_app. right. apply elem_of_app. by left. }
  exists h. cbn zeta. split_and!.
  - rewrite <- (order_by_stable hash h), Hsplit.
    rewrite !filter_app, !length_app.
    rewrite (filter_all _ g) by done. lia.
  - exists r. split.
    + apply (elem_of_order_by hash). rewrite Hsplit.
      apply elem_of_app. right. apply elem_of_app. right. by left.
    + destruct g as [|x g]; [simpl in Hlen; lia|].
      assert (key_le hash x r) as Hxr.
      { apply (StronglySorted_app_1_elem_of _ _ _ _ _ Hsorted).
        - apply elem_of_app. right. by left.
        - by left. }
      unfold key_le in Hxr. rewrite (Hg x) in Hxr by (by left).
      destruct (sql_le (hash r) h) eqn:Hle; [|done].
      destruct Hr. by apply sql_le_antisym.
  - unfold group_report in *. apply elem_of_cons in Hev as [->|Hev];
      [by left|right].
    apply list_elem_of_fmap in Hev as (y & -> & Hy).
    apply (list_elem_of_fmap_2 (λ y, Print ("  " +:+ y))).
    apply list_elem_of_fmap in Hy as (x & -> & Hx).
    apply list_elem_of_fmap_2. by apply Hsub.
Qed.

(** ** Database.Integrity *)

Lemma Integrity_body_eq (DRY_RUN : bool) (r : Row) (w : World) :
  Integrity_body DRY_RUN r w =
  match resolve (fs w !! path r) with
  | Some (RegularFile content readable) =>
      let hash' := if readable then Some (sha256_hexdigest content) else None in
      let warn :=
        if readable then [] else [Warning ("Unable to read " +:+ path r)] in
      if bool_decide (hash r ≠ hash') then
        mkRun (Ok ())
          (if DRY_RUN then w
           else mkWorld (update_hash_where_path hash' (path r) (files w)) (fs w))
          (warn ++
           Print ("File " +:+ path r +:+ " changed." +:+
                  String "010" "  Old hash:" +:+ fmt (hash r) +:+
                  String "010" "  New hash:" +:+ fmt hash') ::
           (if DRY_RUN then [] else [SqlUpdate hash' (path r)]))
      else mkRun (Ok ()) w warn
  | _ =>
      mkRun (Ok ())
        (if DRY_RUN then w
         else mkWorld (delete_where_path (path r) (files w)) (fs w))
        (Warning ("File " +:+ path r +:+ " no longer exists") ::
         (if DRY_RUN then [] else [SqlDelete (path r)]))
  end.
Proof.
  unfold Integrity_body, mbind, M_bind, os_path_isfile.
  cbn [result world output].
  destruct (resolve (fs w !! path r)) as [[content [|]|[|]]|] eqn:Hres;
    cbn [result world output]; rewrite ?HashFile_spec, ?Hres;
    cbn [result world output]; try (by destruct DRY_RUN).
  - case_bool_decide; [|done]. by destruct DRY_RUN.
  - case_bool_decide; [|done]. by destruct DRY_RUN.
Qed.

Lemma Integrity_eq (DRY_RUN : bool) (w : World) :
  Integrity DRY_RUN w =
  for_each (order_by (λ r, Some (path r)) (files w)) (Integrity_body DRY_RUN) w.
Proof.
  unfold Integrity, mbind, M_bind, fetchall. cbn [result world output].
  by rewrite app_nil_l, <- Run_eta.
Qed.

Lemma Integrity_body_completes (DRY_RUN : bool) (r : Row) (w : World) :
  result (Integrity_body DRY_RUN r w) = Ok ().
Proof.
  rewrite Integrity_body_eq.
  destruct (resolve (fs w !! path r)) as [[content [|]|[|]]|]; simpl;
    try done; by case_bool_decide.
Qed.

Lemma Integrity_body_fs (DRY_RUN : bool) (r : Row) (w : World) :
  fs (world (Integrity_body DRY_RUN r w)) = fs w.
Proof.
  rewrite Integrity_body_eq.
  destruct (resolve (fs w !! path r)) as [[content [|]|[|]]|]; simpl;
    try (by destruct DRY_RUN); case_bool_decide; by destruct DRY_RUN.
Qed.

Lemma Integrity_loop_fs (DRY_RUN : bool) (rows : list Row) (w : World) :
  fs (world (for_each rows (Integrity_body DRY_RUN) w)) = fs w.
Proof.
  apply (for_each_invariant (λ w', fs w' = fs w)); [done|].
  intros a w' _ Hw'. by rewrite Integrity_body_fs.
Qed.

Lemma Integrity_loop_completes (DRY_RUN : bool) (rows : list Row) (w : World) :
  result (for_each rows (Integrity_body DRY_RUN) w) = Ok ().
Proof.
  apply (for_each_completes (λ _, True)); [done|].
  intros a w' _ _. split; [apply Integrity_body_completes|done].
Qed.

Lemma up_to_date_fs (w w' : World) (r : Row) :
  fs w = fs w' → up_to_date w r → up_to_date w' r.
Proof.
  intros Hfs [Hfile Hhash]. split.
  - revert Hfile. unfold os_path_isfile. simpl. by rewrite Hfs.
  - by rewrite <- (proj1 (HashFile_fs (path r) w w' Hfs)).
Qed.

(** On a record that is up to date [Integrity] changes nothing and prints
    nothing. *)
Lemma Integrity_body_up_to_date (DRY_RUN : bool) (r : Row) (w : World) :
  up_to_date w r →
  world (Integrity_body DRY_RUN r w) = w ∧
  Forall (λ ev, ∃ m, ev = Warning m) (output (Integrity_body DRY_RUN r w)).
Proof.
  intros [Hfile Hhash]. rewrite Integrity_body_eq.
  revert Hfile Hhash. rewrite HashFile_spec. unfold os_path_isfile. simpl.
  destruct (resolve (fs w !! path r)) as [[content [|]|[|]]|]; simpl;
    intros [=] [= Hh]; rewrite <- Hh;
    (rewrite bool_decide_eq_false_2 by (by intros ?)); simpl;
    (split; [done|]); repeat constructor; by eexists.
Qed.

(** On a record that is not up to date, and outside a dry run,
    [Integrity] makes every record of that path up to date or deletes
    them all; the other records stay as they are. *)
Lemma Integrity_body_repairs (a : Row) (w : World) (r : Row) :
  r ∈ files (world (Integrity_body false a w)) →
  up_to_date w r ∨ (r ∈ files w ∧ r ≠ a).
Proof.
  rewrite Integrity_body_eq.
  destruct (resolve (fs w !! path a)) as [[content readable|readable']|] eqn:Hres;
    cbn zeta.
  - case_bool_decide as Hne; simpl.
    + intros (r0 & -> & Hr0)%list_elem_of_fmap. case_bool_decide as Hp.
      * left. split.
        -- unfold os_path_isfile. simpl. by rewrite Hp, Hres.
        -- rewrite HashFile_spec. simpl. rewrite Hp, Hres.
           by destruct readable.
      * right. split; [done|]. by intros ->.
    + intros Hr. destruct (decide (r = a)) as [->|]; [|by right].
      left. split.
      * unfold os_path_isfile. simpl. by rewrite Hres.
      * rewrite HashFile_spec, Hres. rewrite Hne. by destruct readable.
  - simpl. intros [Hp Hr]%list_elem_of_filter. right. split; [done|].
    by intros ->.
  - simpl. intros [Hp Hr]%list_elem_of_filter. right. split; [done|].
    by intros ->.
Qed.

Lemma Integrity_loop_up_to_date (rows : list Row) (w0 : World) :
  (∀ r, r ∈ files w0 → up_to_date w0 r ∨ r ∈ rows) →
  ∀ r, r ∈ files (world (for_each rows (Integrity_body false) w0)) →
       up_to_date (world (for_each rows (Integrity_body false) w0)) r.
Proof.
  revert w0. induction rows as [|a rows IH]; intros w0 H0.
  - intros r Hr. destruct (H0 r Hr) as [?|?%elem_of_nil]; done.
  - rewrite for_each_cons, Integrity_body_completes. cbn [world].
    apply IH. intros r Hr.
    destruct (Integrity_body_repairs a w0 r Hr) as [Hup|[Hin Hne]].
    + left. eapply up_to_date_fs; [|done]. by rewrite Integrity_body_fs.
    + destruct (H0 r Hin) as [Hup|Hrows].
      * left. eapply up_to_date_fs; [|done]. by rewrite Integrity_body_fs.
      * right. apply elem_of_cons in Hrows as [?|?]; done.
Qed.

Lemma Integrity_loop_settled (DRY_RUN : bool) (rows : list Row) (w : World) :
  (∀ r, r ∈ rows → up_to_date w r) →
  result (for_each rows (Integrity_body DRY_RUN) w) = Ok () ∧
  world (for_each rows (Integrity_body DRY_RUN) w) = w ∧
  Forall (λ ev, ∃ m, ev = Warning m)
         (output (for_each rows (Integrity_body DRY_RUN) w)).
Proof.
  induction rows as [|a rows IH]; intros Hall; [done|].
  rewrite for_each_cons, Integrity_body_completes. cbn zeta.
  destruct (Integrity_body_up_to_date DRY_RUN a w) as [Hw Ho].
  { apply Hall. by left. }
  rewrite Hw. destruct IH as (Hres & Hw' & Ho').
  { intros r Hr. apply Hall. by right. }
  simpl. split_and!; [done|done|]. by apply Forall_app.
Qed.

(** C7. verifyAll is idempotent: after a run of [Integrity] that commits
    its changes, a second run on the same file system updates no record and
    deletes none; it leaves the table as it is and prints nothing. *)
Theorem Integrity_idempotent (w : World) :
  let w1 := world (Integrity false w) in
  let second := Integrity false w1 in
  result second = Ok () ∧
  fs w1 = fs w ∧
  world second = w1 ∧
  (∀ h p, SqlUpdate h p ∉ output second) ∧
  (∀ p, SqlDelete p ∉ output second) ∧
  printed (output second) = [].
Proof.
  intros w1 second.
  assert (∀ r, r ∈ files w1 → up_to_date w1 r) as Hup.
  { subst w1. rewrite Integrity_eq. apply Integrity_loop_up_to_date.
    intros r Hr. right. by apply elem_of_order_by. }
  assert (fs w1 = fs w) as Hfs.
  { subst w1. rewrite Integrity_eq.
    apply (for_each_invariant (λ w', fs w' = fs w)); [done|].
    intros a w' _ Hw'. by rewrite Integrity_body_fs. }
  destruct (Integrity_loop_settled false
              (order_by (λ r, Some (path r)) (files w1)) w1)
    as (Hres & Hw & Hout).
  { intros r Hr. apply Hup. by apply elem_of_order_by in Hr. }
  subst second. rewrite Integrity_eq.
  rewrite Forall_forall in Hout.
  split_and!; try done.
  - intros h p Hin. by destruct (Hout _ Hin).
  - intros p Hin. by destruct (Hout _ Hin).
  - apply elem_of_nil_inv. intros line Hline.
    apply list_elem_of_omap in Hline as (ev & Hev & Hp).
    destruct (Hout _ Hev) as [m ->]. done.
Qed.

(** [Integrity] keeps the records of a path that is a regular file. *)
Lemma Integrity_body_keeps (DRY_RUN : bool) (a : Row) (w : World) (p : string)
  (content : list byte) (readable : bool) :
  resolve (fs w !! p) = Some (RegularFile content readable) →
  (∃ x, x ∈ files w ∧ path x = p) →
  ∃ x, x ∈ files (world (Integrity_body DRY_RUN a w)) ∧ path x = p.
Proof.
  intros Hp (x & Hx & Hxp). rewrite Integrity_body_eq.
  destruct (resolve (fs w !! path a)) as [[c rd|]|] eqn:Hres; cbn zeta.
  - case_bool_decide; simpl; [|by exists x].
    destruct DRY_RUN; simpl; [by exists x|].
    eexists. split; [by apply list_elem_of_fmap_2|].
    by case_bool_decide.
  - destruct DRY_RUN; simpl; [by exists x|].
    exists x. split; [|done]. apply list_elem_of_filter. split; [|done].
    intros Heq. rewrite Hxp in Heq. rewrite Heq, Hres in Hp. done.
  - destruct DRY_RUN; simpl; [by exists x|].
    exists x. split; [|done]. apply list_elem_of_filter. split; [|done].
    intros Heq. rewrite Hxp in Heq. rewrite Heq, Hres in Hp. done.
Qed.

(** C10. verifyAll on an unreadable file: for a record with a stored digest
    whose file exists but cannot be read, hashing gives [None], [Integrity]
    prints the file as changed with new hash [None], and outside a dry run
    it stores [None] in place of the digest; the record stays in the
    table. *)
Theorem Integrity_unreadable_file (DRY_RUN : bool) (w : World) (p d : string)
  (content : list byte) :
  mkRow p (Some d) ∈ files w →
  resolve (fs w !! p) = Some (RegularFile content false) →
  let run := Integrity DRY_RUN w in
  result (os_path_isfile p w) = Ok true ∧
  result (HashFile p w) = Ok None ∧
  Print ("File " +:+ p +:+ " changed." +:+
         String "010" "  Old hash:" +:+ d +:+
         String "010" "  New hash:None") ∈ output run ∧
  (DRY_RUN = true → world run = w) ∧
  (DRY_RUN = false →
   SqlUpdate None p ∈ output run ∧
   (∃ x, x ∈ files (world run) ∧ path x = p) ∧
   (∀ x, x ∈ files (world run) → path x = p → hash x = None)).
Proof.
  intros Hrow Hp run. subst run. rewrite Integrity_eq.
  set (rows := order_by (λ r, Some (path r)) (files w)).
  assert (mkRow p (Some d) ∈ rows) as Hin by by apply elem_of_order_by.
  apply list_elem_of_split in Hin as (before & after & Hsplit).
  pose proof (Integrity_loop_completes DRY_RUN before w) as Hbefore.
  pose proof (Integrity_loop_fs DRY_RUN before w) as Hfs.
  destruct (for_each_turn before after (mkRow p (Some d))
              (Integrity_body DRY_RUN) w Hbefore) as [out' Hout].
  rewrite <- Hsplit in Hout.
  rewrite Integrity_body_eq in Hout. simpl in Hout.
  rewrite Hfs, Hp in Hout. simpl in Hout.
  split_and!.
  - unfold os_path_isfile. simpl. by rewrite Hp.
  - rewrite HashFile_spec. by rewrite Hp.
  - rewrite Hout. set_solver.
  - intros ->. apply (for_each_invariant (λ w', w' = w)); [done|].
    intros a w' _ ->. rewrite Integrity_body_eq.
    destruct (resolve (fs w !! path a)) as [[c rd|]|]; simpl; try done.
    by case_bool_decide.
  - intros ->. split_and!.
    + rewrite Hout. set_solver.
    + apply (for_each_invariant
               (λ w', fs w' = fs w ∧ ∃ x, x ∈ files w' ∧ path x = p)).
      * split; [done|]. by exists (mkRow p (Some d)).
      * intros a w' _ [Hfs' Hx]. split; [by rewrite Integrity_body_fs|].
        eapply Integrity_body_keeps; [|done]. by rewrite Hfs'.
    + intros x Hx Hxp.
      assert (up_to_date (world (for_each rows (Integrity_body false) w)) x)
        as [_ Hhash].
      { apply Integrity_loop_up_to_date; [|done].
        intros r Hr. right. by apply elem_of_order_by. }
      rewrite HashFile_spec, Integrity_loop_fs, Hxp, Hp in Hhash.
      by injection Hhash.
Qed.

Lemma Integrity_table_step (a : Row) (w0 w : World) :
  fs w = fs w0 →
  (λ r, mkRow (path r) (hash_at w0 (path r))) <$>
    filter (λ r, isfile_at w0 (path r) = true)
           (files (world (Integrity_body false a w))) =
  (λ r, mkRow (path r) (hash_at w0 (path r))) <$>
    filter (λ r, isfile_at w0 (path r) = true) (files w).
Proof.
  intros Hfs. rewrite Integrity_body_eq.
  destruct (resolve (fs w !! path a)) as [[content readable|readable']|] eqn:Hres;
    cbn zeta.
  - case_bool_decide; [|done]. cbn [world files].
    unfold update_hash_where_path.
    apply (by_path_fmap _ (isfile_at w0) (hash_at w0)).
    intros r. by case_bool_decide.
  - cbn [world files]. unfold delete_where_path.
    apply (f_equal (fmap _)). apply list_filter_filter_l.
    intros r Hr Heq. rewrite Heq in Hr. revert Hr.
    unfold isfile_at, os_path_isfile. simpl. by rewrite <- Hfs, Hres.
  - cbn [world files]. unfold delete_where_path.
    apply (f_equal (fmap _)). apply list_filter_filter_l.
    intros r Hr Heq. rewrite Heq in Hr. revert Hr.
    unfold isfile_at, os_path_isfile. simpl. by rewrite <- Hfs, Hres.
Qed.

Lemma Integrity_loop_table (rows : list Row) (w0 w : World) :
  fs w = fs w0 →
  (∀ r, r ∈ files w → up_to_date w r ∨ r ∈ rows) →
  files (world (for_each rows (Integrity_body false) w)) =
  (λ r, mkRow (path r) (hash_at w0 (path r))) <$>
    filter (λ r, isfile_at w0 (path r) = true) (files w).
Proof.
  revert w. induction rows as [|a rows IH]; intros w Hfs Hall.
  - simpl. symmetry. apply fmap_filter_fixed. intros r Hr.
    destruct (Hall r Hr) as [Hup|Hin]; [|by apply elem_of_nil in Hin].
    apply (up_to_date_fs w w0) in Hup as [Hfile Hhash]; [|done].
    unfold isfile_at, hash_at. rewrite Hfile, Hhash. by destruct r.
  - rewrite for_each_cons, Integrity_body_completes. cbn [world].
    rewrite IH.
    + by apply Integrity_table_step.
    + by rewrite Integrity_body_fs.
    + intros r Hr.
      destruct (Integrity_body_repairs a w r Hr) as [Hup|[Hin Hne]].
      * left. eapply up_to_date_fs; [|done]. by rewrite Integrity_body_fs.
      * destruct (Hall r Hin) as [Hup|Hrows].
        -- left. eapply up_to_date_fs; [|done]. by rewrite Integrity_body_fs.
        -- right. apply elem_of_cons in Hrows as [?|?]; done.
Qed.

(** X9. What a committing [Integrity] leaves: the records whose path is a
    regular file, in the order they had, each with the hash that
    [HashFile] returns for its path; the file system as it was. *)
Theorem Integrity_table (w : World) :
  result (Integrity false w) = Ok () ∧
  fs (world (Integrity false w)) = fs w ∧
  files (world (Integrity false w)) =
  (λ r, mkRow (path r) (hash_at w (path r))) <$>
    filter (λ r, isfile_at w (path r) = true) (files w).
Proof.
  rewrite Integrity_eq. split_and!.
  - apply Integrity_loop_completes.
  - apply Integrity_loop_fs.
  - apply Integrity_loop_table; [done|].
    intros r Hr. right. by apply elem_of_order_by.
Qed.

(** ** Database.Purge, one candidate *)

Lemma Purge_eq (DRY_RUN : bool) (thePath : string) (w : World) :
  Purge DRY_RUN thePath w =
  for_each (select_where_path_like (abspath thePath +:+ "%") (files w))
           (Purge_body DRY_RUN (abspath thePath)) w.
Proof.
  unfold Purge, mbind, M_bind, fetchall. cbn [result world output].
  by rewrite app_nil_l, <- Run_eta.
Qed.

(** A fresh record passes the check in silence. *)
Lemma Purge_check_fresh (x : Row) (die : bool) (w : World) :
  fresh w x → Purge_check x die w = mkRun (Ok die) w [].
Proof.
  intros (Hlink & Hhash & Htruthy). revert Hlink Hhash.
  unfold Purge_check. run_simpl. rewrite !HashFile_spec.
  destruct (fs w !! path x) as [[[[content [|]|[|]]|to] rm]|] eqn:Hfs;
    cbn [resolve]; run_simpl; try done; intros _ [= Hh];
    rewrite ?HashFile_spec, ?Hfs; cbn [resolve]; run_simpl;
    try (by rewrite <- Hh in Htruthy).
  rewrite Hh, Htruthy. rewrite bool_decide_eq_false_2 by (by intros ?). done.
Qed.

(** The check changes nothing and logs warnings only; when it leaves [die]
    false, the record is fresh; the one exception it lets through is that
    of hashing a directory; and it logs a warning for a record that is not
    fresh. *)
Lemma Purge_check_spec (x : Row) (die : bool) (w : World) :
  world (Purge_check x die w) = w ∧
  Forall warning (output (Purge_check x die w)) ∧
  (result (Purge_check x die w) = Ok false → die = false ∧ fresh w x) ∧
  (∀ e, result (Purge_check x die w) = Raise e →
        e = IsADirectoryError (path x) ∧
        resolve (fs w !! path x) = Some (Directory true)) ∧
  (output (Purge_check x die w) = [] →
   resolve (fs w !! path x) ≠ Some (Directory true) → fresh w x).
Proof.
  unfold Purge_check, fresh. run_simpl. rewrite !HashFile_spec.
  destruct (fs w !! path x) as [[[[content [|]|[|]]|[[content [|]|[|]]|]] rm]|]
    eqn:Hfs;
    cbn [resolve]; run_simpl; rewrite ?HashFile_spec, ?Hfs; cbn [resolve];
    run_simpl;
    try (split_and!;
         [done|repeat constructor; by eexists|done|by intros e [= <-]|done]).
  all: destruct (truthy (Some (sha256_hexdigest content))) eqn:Htruthy;
    cbn [negb orb]; run_simpl;
    try (split_and!; [done|repeat constructor; by eexists|done|done|done]).
  all: case_bool_decide as Hne; run_simpl;
    try (split_and!; [done|repeat constructor; by eexists|done|done|done]).
  split_and!; [done|done| |done|].
  - intros [= ->]. by rewrite Hne.
  - intros _ _. by rewrite Hne.
Qed.

Lemma Purge_check_loop_fresh (l : list Row) (die : bool) (w : World) :
  Forall (fresh w) l →
  for_each_with l die Purge_check w = mkRun (Ok die) w [].
Proof.
  induction 1 as [|x l Hx _ IH]; [done|]. simpl.
  unfold mbind, M_bind. rewrite (Purge_check_fresh x die w Hx).
  cbn [result world output]. by rewrite IH.
Qed.

Lemma Purge_check_loop_spec (l : list Row) (die : bool) (w : World) :
  world (for_each_with l die Purge_check w) = w ∧
  Forall warning (output (for_each_with l die Purge_check w)) ∧
  (result (for_each_with l die Purge_check w) = Ok false →
   die = false ∧ Forall (fresh w) l) ∧
  (∀ e, result (for_each_with l die Purge_check w) = Raise e →
        ∃ x, x ∈ l ∧ e = IsADirectoryError (path x) ∧
             resolve (fs w !! path x) = Some (Directory true)) ∧
  (output (for_each_with l die Purge_check w) = [] →
   Forall (λ x, resolve (fs w !! path x) ≠ Some (Directory true)) l →
   Forall (fresh w) l).
Proof.
  revert die. induction l as [|x l IH]; intros die.
  - simpl. split_and!; [done|done| |done|done]. by intros [= ->].
  - simpl. unfold mbind, M_bind.
    destruct (Purge_check_spec x die w) as (Hw & Ho & Hr & He & Hq).
    destruct (result (Purge_check x die w)) as [die'|e] eqn:Hres;
      cbn [result world output].
    + rewrite Hw. destruct (IH die') as (Hw' & Ho' & Hr' & He' & Hq').
      split_and!; [done|by apply Forall_app| | |].
      * intros Hfalse. destruct (Hr' Hfalse) as [-> Hl].
        destruct (Hr eq_refl) as [-> Hx]. split; [done|]. by constructor.
      * intros e Hraise. destruct (He' e Hraise) as (y & Hy & Hey).
        exists y. split; [by right|done].
      * intros [Hnil Hnil']%app_eq_nil [Hx Hl]%Forall_cons.
        constructor; [by apply Hq|by apply Hq'].
    + split_and!; [done|done|done| |].
      * intros e' [= <-]. exists x. split; [by left|]. by apply He.
      * intros _ [Hx _]%Forall_cons. by destruct (He e eq_refl) as [_ ?].
Qed.

(** One turn of [Purge]: either the candidate passes every check and the
    turn is the deletion step, or it does not, and the turn changes nothing
    and logs warnings only; the one exception of such a turn is that of
    hashing a directory. *)
Lemma Purge_body_cases (DRY_RUN : bool) (theRealPath : string) (cand : Row)
  (w : World) :
  (purgeable theRealPath w cand ∧
   Purge_body DRY_RUN theRealPath cand w =
   (print ("Purging file: " +:+ path cand);;
    if DRY_RUN then logging_warning "... Just kidding, this is a dry run"
    else execute_delete (path cand);; os_remove (path cand)) w) ∨
  (¬ purgeable theRealPath w cand ∧
   world (Purge_body DRY_RUN theRealPath cand w) = w ∧
   Forall warning (output (Purge_body DRY_RUN theRealPath cand w)) ∧
   ∀ e, result (Purge_body DRY_RUN theRealPath cand w) = Raise e →
        ∃ x, x ∈ select_where_hash (hash cand) (files w) ∧
             e = IsADirectoryError (path x) ∧
             resolve (fs w !! path x) = Some (Directory true)).
Proof.
  unfold Purge_body.
  destruct (sameDir theRealPath (path cand)) eqn:Hdir; cbn [negb].
  2:{ right. split_and!; try done. intros (Hd & _). congruence. }
  rewrite (bind_Ok (fetchall _) _ w (select_where_hash (hash cand) (files w)))
    by done.
  cbn [fetchall world output]. rewrite !app_nil_l.
  unfold purgeable. cbn zeta.
  set (duplicates := select_where_hash (hash cand) (files w)).
  destruct (Purge_check_loop_spec duplicates false w)
    as (Hw & Ho & Hr & He & _).
  destruct (result (for_each_with duplicates false Purge_check w))
    as [[|]|e] eqn:Hres.
  - rewrite (bind_Ok _ _ _ _ Hres). cbn [result world output].
    right. rewrite Hw, app_nil_r. split_and!; try done.
    intros (_ & Hfresh & _).
    by rewrite (Purge_check_loop_fresh _ _ _ Hfresh) in Hres.
  - destruct (Hr eq_refl) as [_ Hfresh].
    rewrite (bind_Ok _ _ _ _ Hres).
    rewrite (Purge_check_loop_fresh _ _ _ Hfresh).
    cbn [result world output]. rewrite !app_nil_l.
    case_bool_decide as Hlen.
    { right. split_and!; try done. intros (_ & _ & Hlen' & _). lia. }
    rewrite (bind_Ok (fetchall _) _ w duplicates) by done.
    cbn [fetchall world output]. rewrite !app_nil_l.
    case_bool_decide as Hcount.
    + right. split_and!; [by intros (_ & _ & _ & ?)|done| |done].
      repeat constructor. by eexists.
    + left. split.
      * split_and!; [done|done|lia|done].
      * by rewrite <- !Run_eta.
  - rewrite (bind_Raise _ _ _ _ Hres). cbn [result world output].
    right. split_and!; [|done|done|].
    + intros (_ & Hfresh & _).
      by rewrite (Purge_check_loop_fresh _ _ _ Hfresh) in Hres.
    + intros e' [= <-]. by apply He.
Qed.

(** The deletion step: the record goes first, then the file; when the file
    cannot be unlinked the record is gone all the same. *)
Lemma Purge_commit_step (p : string) (w : World) :
  let r := (print ("Purging file: " +:+ p);;
            execute_delete p;; os_remove p) w in
  (is_Some (fs w !! p) ∧
   r = mkRun (Ok ())
             (mkWorld (delete_where_path p (files w)) (delete p (fs w)))
             [Print ("Purging file: " +:+ p); SqlDelete p; OsRemove p]) ∨
  (∃ e, r = mkRun (Raise e)
                  (mkWorld (delete_where_path p (files w)) (fs w))
                  [Print ("Purging file: " +:+ p); SqlDelete p] ∧
        ((e = FileNotFoundError p ∧ fs w !! p = None) ∨
         (e = PermissionError p ∧ is_Some (fs w !! p)) ∨
         (e = IsADirectoryError p ∧ is_Some (fs w !! p)))).
Proof.
  run_simpl. unfold os_remove. cbn [fs files].
  destruct (fs w !! p) as [[[[content rd|rd']|to] [|]]|] eqn:Hfs;
    cbn [result world output app];
    first [ left; by split
          | right; eexists; split; [done|]; by auto ].
Qed.

Lemma Purge_commit_step_Ok (p : string) (w : World) (content : list byte) :
  fs w !! p = Some (mkEntry (Here (RegularFile content true)) true) →
  (print ("Purging file: " +:+ p);; execute_delete p;; os_remove p) w =
  mkRun (Ok ()) (mkWorld (delete_where_path p (files w)) (delete p (fs w)))
        [Print ("Purging file: " +:+ p); SqlDelete p; OsRemove p].
Proof.
  intros Hfs. run_simpl. unfold os_remove. cbn [fs files]. by rewrite Hfs.
Qed.

Lemma fresh_regular (w : World) (x : Row) :
  fresh w x →
  ∃ content rm,
    fs w !! path x = Some (mkEntry (Here (RegularFile content true)) rm).
Proof.
  intros (Hlink & Hhash & Htruthy). revert Hlink Hhash.
  rewrite HashFile_spec. unfold os_path_islink. cbn [result].
  destruct (fs w !! path x) as [[[[content [|]|[|]]|to] rm]|]; cbn [resolve];
    intros [=] [= Hh]; try (by rewrite <- Hh in Htruthy).
  by eexists _, _.
Qed.

Lemma purgeable_in_group (rp : string) (w : World) (a : Row) :
  purgeable rp w a → a ∈ files w →
  a ∈ select_where_hash (hash a) (files w).
Proof.
  intros (_ & _ & Hlen & _) Hin.
  apply list_elem_of_filter. split; [|done].
  destruct (select_where_hash (hash a) (files w)) as [|x l] eqn:Hgroup;
    [simpl in Hlen; lia|].
  assert (x ∈ select_where_hash (hash a) (files w)) as Hx
    by (rewrite Hgroup; by left).
  apply list_elem_of_filter in Hx as [Hx _].
  destruct (hash a); [|by destruct (hash x)].
  simpl. by apply bool_decide_eq_true_2.
Qed.

(** ** Database.Purge, the deletions *)

Lemma Purge_body_tracked (DRY_RUN : bool) (rp : string) (cands : list Row)
  (a : Row) (w : World) :
  tracked cands w →
  result (Purge_body DRY_RUN rp a w) = Ok () →
  tracked cands (world (Purge_body DRY_RUN rp a w)).
Proof.
  intros Htr.
  destruct (Purge_body_cases DRY_RUN rp a w) as [[_ ->]|(_ & -> & _)]; [|done].
  destruct DRY_RUN; [by run_simpl|].
  destruct (Purge_commit_step (path a) w) as [[_ ->]|(e & -> & _)]; [|done].
  intros _ r Hr. cbn [world files fs].
  destruct (decide (path r = path a)) as [Heq|Hne].
  - right. rewrite Heq. apply lookup_delete_eq.
  - destruct (Htr r Hr) as [Hin|Hnone].
    + left. by apply list_elem_of_filter.
    + right. by rewrite lookup_delete_ne.
Qed.

Lemma Purge_turn_tracked (DRY_RUN : bool) (thePath : string) (w0 : World)
  (cand : Row) (w : World) :
  Purge_turn DRY_RUN thePath w0 cand w →
  cand ∈ files w ∨ fs w !! path cand = None.
Proof.
  intros (before & after & Hsplit & Hres & ->).
  set (cands := select_where_path_like (abspath thePath +:+ "%") (files w0))
    in *.
  assert (tracked cands
            (world (for_each before (Purge_body DRY_RUN (abspath thePath)) w0)))
    as Htr.
  { apply for_each_invariant_Ok; [| |done].
    - intros r Hr. left. subst cands.
      by apply list_elem_of_filter in Hr as [_ ?].
    - intros a w _ Hw Hok. by apply Purge_body_tracked. }
  apply Htr. rewrite Hsplit. apply elem_of_app. right. by left.
Qed.

(** What holds when [Purge] unlinks a file. *)
Lemma Purge_deletion (DRY_RUN : bool) (thePath : string) (w0 : World)
  (p : string) :
  OsRemove p ∈ output (Purge DRY_RUN thePath w0) →
  ∃ cand w,
    Purge_turn DRY_RUN thePath w0 cand w ∧
    DRY_RUN = false ∧ path cand = p ∧
    purgeable (abspath thePath) w cand ∧
    cand ∈ select_where_hash (hash cand) (files w).
Proof.
  rewrite Purge_eq. intros Hev.
  apply for_each_output_elem in Hev
    as (before & cand & after & Hsplit & Hres & Hev).
  set (w := world (for_each before (Purge_body DRY_RUN (abspath thePath)) w0))
    in *.
  assert (Purge_turn DRY_RUN thePath w0 cand w) as Hturn.
  { by exists before, after. }
  exists cand, w. split; [done|].
  destruct (Purge_body_cases DRY_RUN (abspath thePath) cand w)
    as [[Hpurge Heq]|(_ & _ & Hwarn & _)].
  - rewrite Heq in Hev. destruct DRY_RUN.
    { revert Hev. run_simpl. intros Hev. inv_elem Hev; done. }
    destruct (Purge_commit_step (path cand) w)
      as [[Hsome Hrun]|(e & Hrun & _)];
      rewrite Hrun in Hev; cbn [output] in Hev; inv_elem Hev; try done.
    injection Hev as ->.
    split_and!; try done.
    destruct (Purge_turn_tracked _ _ _ _ _ Hturn) as [Hin|Hnone].
    + by apply (purgeable_in_group (abspath thePath)).
    + rewrite Hnone in Hsome. by destruct Hsome.
  - rewrite Forall_forall in Hwarn. by destruct (Hwarn _ Hev).
Qed.

(** C1. Purge safety: when [Purge] unlinks a path, it does so at the turn
    of a candidate record of that path, in a world where (a) hashing the
    path gives the stored digest of the record, (b) every record with that
    digest hashes to its stored digest and is not a symbolic link, and (c)
    the candidate is the only record of the group that [sameDir] places in
    its directory, so that no other record of the group has the directory
    segments of the candidate. *)
Theorem Purge_safety (DRY_RUN : bool) (thePath : string) (w0 : World)
  (p : string) :
  OsRemove p ∈ output (Purge DRY_RUN thePath w0) →
  ∃ cand w,
    let group := select_where_hash (hash cand) (files w) in
    DRY_RUN = false ∧
    Purge_turn DRY_RUN thePath w0 cand w ∧
    path cand = p ∧ cand ∈ group ∧
    is_Some (hash cand) ∧
    result (HashFile p w) = Ok (hash cand) ∧
    (∀ x, x ∈ group →
          result (HashFile (path x) w) = Ok (hash x) ∧
          result (os_path_islink (path x) w) = Ok false) ∧
    filter (λ x, sameDir p (path x) = true) group = [cand] ∧
    (∀ x, x ∈ group → x ≠ cand → dirSegments (path x) ≠ dirSegments p).
Proof.
  intros Hev.
  destruct (Purge_deletion _ _ _ _ Hev)
    as (cand & w & Hturn & -> & <- & Hpurge & Hin).
  exists cand, w. cbn zeta.
  destruct Hpurge as (_ & Hfresh & _ & Hcount).
  rewrite Forall_forall in Hfresh.
  assert (filter (λ x, sameDir (path cand) (path x) = true)
                 (select_where_hash (hash cand) (files w)) = [cand]) as Hone.
  { unfold Purge_count in Hcount.
    assert (cand ∈ filter (λ x, sameDir (path cand) (path x) = true)
                          (select_where_hash (hash cand) (files w))) as Hc.
    { apply list_elem_of_filter. split; [apply sameDir_refl|done]. }
    destruct (filter _ _) as [|y [|z l]]; simpl in Hcount; try lia.
    by apply list_elem_of_singleton in Hc as ->. }
  destruct (Hfresh cand Hin) as (_ & Hhash & Htruthy).
  split_and!; try done.
  - destruct (hash cand); [by eexists|done].
  - intros x Hx. by destruct (Hfresh x Hx) as (? & ? & _).
  - intros x Hx Hne Hdir.
    assert (x ∈ [cand]) as Hxc.
    { rewrite <- Hone. apply list_elem_of_filter. split; [|done].
      by apply sameDir_same_directory. }
    by apply list_elem_of_singleton in Hxc.
Qed.







(** Whether a record is fresh depends on what is at its path only. *)
Lemma fresh_frame (w w' : World) (x : Row) :
  fs w' !! path x = fs w !! path x → fresh w x → fresh w' x.
Proof.
  intros Heq. unfold fresh. rewrite !HashFile_spec. unfold os_path_islink.
  cbn [result]. rewrite Heq.
  by destruct (resolve (fs w !! path x)) as [[content [|]|[|]]|].
Qed.

(** The world after one turn of [Purge]: as before, or without the records
    of the candidate's path and, when unlinking succeeds, without its
    file. *)
Lemma Purge_body_world (DRY_RUN : bool) (rp : string) (a : Row) (w : World) :
  let r := Purge_body DRY_RUN rp a w in
  world r = w ∨
  (purgeable rp w a ∧ DRY_RUN = false ∧
   files (world r) = delete_where_path (path a) (files w) ∧
   ((result r = Ok () ∧ fs (world r) = delete (path a) (fs w) ∧
     is_Some (fs w !! path a) ∧
     output r = [Print ("Purging file: " +:+ path a); SqlDelete (path a);
                 OsRemove (path a)]) ∨
    ((∃ e, result r = Raise e) ∧ fs (world r) = fs w ∧
     output r = [Print ("Purging file: " +:+ path a); SqlDelete (path a)]))).
Proof.
  cbn zeta.
  destruct (Purge_body_cases DRY_RUN rp a w) as [[Hp ->]|(_ & -> & _)];
    [|by left].
  destruct DRY_RUN; [left; by run_simpl|]. right.
  destruct (Purge_commit_step (path a) w) as [[Hsome ->]|(e & -> & _)];
    cbn [result world output files fs].
  - split_and!; try done. left. by split_and!.
  - split_and!; try done. right. split_and!; try done. by exists e.
Qed.

(** X10. [Purge] only takes away: what is left of the table is a sublist of the
    table, what is left of the file system a part of the file system, and
    no statement inserts or updates. *)
Theorem Purge_only_shrinks (DRY_RUN : bool) (thePath : string) (w0 : World) :
  let run := Purge DRY_RUN thePath w0 in
  files (world run) `sublist_of` files w0 ∧
  fs (world run) ⊆ fs w0 ∧
  Forall (λ ev, match ev with
                | SqlInsert _ _ | SqlUpdate _ _ => False
                | _ => True
                end) (output run).
Proof.
  cbn zeta. rewrite Purge_eq.
  destruct (for_each_invariant_Forall
              (λ w, files w `sublist_of` files w0 ∧ fs w ⊆ fs w0)
              (λ ev, match ev with
                     | SqlInsert _ _ | SqlUpdate _ _ => False
                     | _ => True
                     end)
              (select_where_path_like (abspath thePath +:+ "%") (files w0))
              (Purge_body DRY_RUN (abspath thePath)) w0) as [[? ?] ?];
    [done| |done].
  intros a w _ [Hfiles Hfs].
  destruct (Purge_body_cases DRY_RUN (abspath thePath) a w)
    as [[_ ->]|(_ & -> & Hwarn & _)].
  - destruct DRY_RUN. { run_simpl. split; [done|]. by repeat constructor. }
    destruct (Purge_commit_step (path a) w) as [[_ ->]|(e & -> & _)];
      cbn [world output files fs].
    + split_and!; [| |by repeat constructor].
      * etrans; [apply sublist_filter|done].
      * etrans; [apply delete_subseteq|done].
    + split_and!; [|done|by repeat constructor].
      etrans; [apply sublist_filter|done].
  - split; [done|]. eapply Forall_impl; [done|]. by intros ev [m ->].
Qed.

(** X11. [Purge] unlinks files of records of the table only, and only such as
    [sameDir] places in the directory it was given. *)
Theorem Purge_scope (DRY_RUN : bool) (thePath : string) (w0 : World)
  (p : string) :
  OsRemove p ∈ output (Purge DRY_RUN thePath w0) →
  sameDir (abspath thePath) p = true ∧
  like (abspath thePath +:+ "%") p = true ∧
  (∃ r, r ∈ files w0 ∧ path r = p) ∧
  is_Some (fs w0 !! p).
Proof.
  intros Hev.
  destruct (Purge_deletion _ _ _ _ Hev)
    as (cand & w & Hturn & -> & <- & Hpurge & Hin).
  pose proof Hturn as (before & after & Hsplit & Hres & Hw).
  assert (cand ∈ select_where_path_like (abspath thePath +:+ "%") (files w0))
    as [Hlike Hcand]%list_elem_of_filter.
  { rewrite Hsplit. apply elem_of_app. right. by left. }
  destruct Hpurge as (Hdir & Hfresh & _).
  split_and!; [done|done|by exists cand|].
  rewrite Forall_forall in Hfresh.
  destruct (fresh_regular w cand (Hfresh cand Hin)) as (content & rm & Hfs).
  assert (fs w ⊆ fs w0) as Hsub.
  { rewrite Hw.
    apply (for_each_invariant (λ v, fs v ⊆ fs w0)); [done|].
    intros a v _ Hv.
    destruct (Purge_body_world false (abspath thePath) a v)
      as [->|(_ & _ & _ & [(_ & -> & _)|(_ & -> & _)])]; try done.
    etrans; [apply delete_subseteq|done]. }
  eapply lookup_weaken_is_Some; [|done]. by eexists.
Qed.


(** A turn of [Purge] that unlinks a file. *)
Lemma Purge_body_unlinks (DRY_RUN : bool) (rp : string) (a : Row) (w : World)
  (p : string) :
  OsRemove p ∈ output (Purge_body DRY_RUN rp a w) →
  DRY_RUN = false ∧ path a = p ∧ purgeable rp w a ∧ is_Some (fs w !! p) ∧
  Purge_body DRY_RUN rp a w =
  mkRun (Ok ()) (mkWorld (delete_where_path p (files w)) (delete p (fs w)))
        [Print ("Purging file: " +:+ p); SqlDelete p; OsRemove p].
Proof.
  destruct (Purge_body_cases DRY_RUN rp a w) as [[Hp ->]|(_ & _ & Hwarn & _)].
  - destruct DRY_RUN.
    { run_simpl. cbn [app]. intros Hin. inv_elem Hin; done. }
    destruct (Purge_commit_step (path a) w) as [[Hsome ->]|(e & -> & _)];
      cbn [output]; intros Hin; inv_elem Hin; try done.
    by injection Hin as ->.
  - intros Hin. rewrite Forall_forall in Hwarn.
    by destruct (Hwarn _ Hin) as [m ?].
Qed.



(** A candidate that passes the checks has a fresh record of its digest
    at another path. *)
Lemma purgeable_other (rp : string) (w : World) (a : Row) :
  purgeable rp w a → a ∈ files w →
  ∃ y, y ∈ files w ∧ hash y = hash a ∧ fresh w y ∧ path y ≠ path a.
Proof.
  intros Hp Ha. pose proof (purgeable_in_group rp w a Hp Ha) as Hin.
  destruct Hp as (_ & Hfresh & Hlen & Hcount).
  unfold Purge_count in Hcount.
  destruct (filter_shorter (λ x, sameDir (path a) (path x) = true)
              (select_where_hash (hash a) (files w))) as (y & Hy & Hdir);
    [lia|].
  rewrite Forall_forall in Hfresh. pose proof (Hfresh y Hy) as Hfy.
  apply list_elem_of_filter in Hy as [Heq Hy].
  exists y. split_and!; try done.
  - unfold sql_eq in Heq. destruct (hash y), (hash a); try done.
    by apply bool_decide_eq_true_1 in Heq as ->.
  - intros Hpath. apply Hdir. rewrite Hpath. apply sameDir_refl.
Qed.

(** Deleting a candidate that passes the checks leaves a fresh record of
    every digest that had one. *)
Lemma purgeable_leaves_copy (rp : string) (w : World) (a x : Row) :
  a ∈ files w ∨ fs w !! path a = None →
  purgeable rp w a →
  x ∈ files w → fresh w x →
  ∃ y, y ∈ delete_where_path (path a) (files w) ∧ hash y = hash x ∧
       fresh w y ∧ path y ≠ path a.
Proof.
  intros Htr Hp Hx Hfx.
  destruct (decide (path x = path a)) as [Heq|Hne].
  2:{ exists x. split_and!; try done. by apply list_elem_of_filter. }
  destruct (fresh_regular w x Hfx) as (content & rm & Hfs).
  destruct Htr as [Ha|Hnone]; [|congruence].
  destruct (purgeable_other rp w a Hp Ha) as (y & Hy & Hh & Hfy & Hpath).
  exists y. split_and!; try done.
  - by apply list_elem_of_filter.
  - rewrite Hh.
    pose proof (purgeable_in_group rp w a Hp Ha) as Hin.
    destruct Hp as (_ & Hfresh & _). rewrite Forall_forall in Hfresh.
    destruct (Hfresh a Hin) as (_ & Hha & _).
    destruct Hfx as (_ & Hhx & _). rewrite Heq in Hhx. congruence.
Qed.

(** X12. [Purge] never deletes the last record of a digest: when it ends, by
    returning or by an exception, every file it has unlinked is gone, and
    the table has a record of another path with the digest that the file
    had when [Purge] started. *)
Theorem Purge_keeps_a_record (DRY_RUN : bool) (thePath : string) (w0 : World)
  (p : string) :
  OsRemove p ∈ output (Purge DRY_RUN thePath w0) →
  let w' := world (Purge DRY_RUN thePath w0) in
  fs w' !! p = None ∧
  ∃ x, x ∈ files w' ∧ path x ≠ p ∧ truthy (hash x) = true ∧
       result (HashFile p w0) = Ok (hash x).
Proof.
  cbn zeta. rewrite Purge_eq. intros Hev.
  apply for_each_output_elem in Hev
    as (before & cand & after & Hsplit & Hres & Hev).
  set (rp := abspath thePath) in *.
  set (cands := select_where_path_like (rp +:+ "%") (files w0)) in *.
  set (w := world (for_each before (Purge_body DRY_RUN rp) w0)) in *.
  apply Purge_body_unlinks in Hev as (-> & <- & Hp & Hsome & Hrun).
  assert (tracked cands w) as Htr.
  { apply for_each_invariant_Ok; [| |done].
    - intros r Hr. left. subst cands.
      by apply list_elem_of_filter in Hr as [_ ?].
    - intros a v _ Hv Hok. by apply Purge_body_tracked. }
  assert (cand ∈ files w) as Hcand.
  { destruct (Htr cand) as [?|Hnone]; [|done|].
    - rewrite Hsplit. apply elem_of_app. right. by left.
    - rewrite Hnone in Hsome. by destruct Hsome. }
  assert (fs w ⊆ fs w0) as Hsub.
  { apply (for_each_invariant (λ v, fs v ⊆ fs w0)); [done|].
    intros a v _ Hv.
    destruct (Purge_body_world false rp a v)
      as [->|(_ & _ & _ & [(_ & -> & _)|(_ & -> & _)])]; try done.
    etrans; [apply delete_subseteq|done]. }
  destruct (purgeable_other rp w cand Hp Hcand) as (y & Hy & Hh & Hfy & Hpath).
  assert (fresh w cand) as Hfc.
  { pose proof Hp as (_ & Hfresh & _). rewrite Forall_forall in Hfresh.
    apply Hfresh. by apply (purgeable_in_group rp). }
  assert (result (HashFile (path cand) w0) = Ok (hash cand)) as Hh0.
  { assert (fresh w0 cand) as (_ & ? & _); [|done].
    apply (fresh_frame w); [|done].
    destruct Hsome as [e He]. rewrite He. by apply (lookup_weaken _ _ _ _ He). }
  set (Q := λ v : World,
         fs v !! path cand = None ∧
         ∃ x, x ∈ files v ∧ hash x = hash cand ∧ fresh v x).
  enough (Q (world (for_each cands (Purge_body false rp) w0)))
    as (Hnone & x & Hx & Hhx & Hfx).
  { split; [done|]. exists x. split_and!; [done| |apply Hfx|congruence].
    intros Heq. destruct (fresh_regular _ x Hfx) as (c & rm & Hfs).
    congruence. }
  rewrite Hsplit, for_each_app by done. cbn [world].
  rewrite for_each_cons. fold w. rewrite Hrun. cbn [result world].
  apply (for_each_invariant_final (tracked cands) Q).
  - intros r Hr. cbn [files fs].
    destruct (decide (path r = path cand)) as [Heq|Hne].
    + right. rewrite Heq. apply lookup_delete_eq.
    + destruct (Htr r Hr) as [Hin|Hnone].
      * left. by apply list_elem_of_filter.
      * right. by rewrite lookup_delete_ne.
  - split; cbn [files fs]; [apply lookup_delete_eq|].
    exists y. split_and!; try done.
    + by apply list_elem_of_filter.
    + apply (fresh_frame w); [|done]. cbn [fs]. by apply lookup_delete_ne.
  - intros a v Ha Hv (Hnone & x & Hx & Hhx & Hfx).
    split; [by apply Purge_body_tracked|].
    destruct (Purge_body_world false rp a v)
      as [->|(Hpa & _ & Hfiles & Hfs)]; [by split; [|exists x]|].
    destruct (purgeable_leaves_copy rp v a x) as (z & Hz & Hhz & Hfz & Hpz);
      try done.
    { apply Hv. rewrite Hsplit. apply elem_of_app. right. by right. }
    split.
    + destruct Hfs as [(_ & -> & _)|(_ & -> & _)]; [|done].
      apply lookup_delete_None. by right.
    + exists z. rewrite Hfiles. split_and!; try done; [congruence|].
      apply (fresh_frame v); [|done].
      destruct Hfs as [(_ & -> & _)|(_ & -> & _)]; [|done].
      by apply lookup_delete_ne.
Qed.

(** A turn of [Purge] that returns: nothing changes and no file is
    unlinked, or the records of the candidate and its file are gone. *)
Lemma Purge_body_Ok (DRY_RUN : bool) (rp : string) (a : Row) (w : World) :
  result (Purge_body DRY_RUN rp a w) = Ok () →
  (world (Purge_body DRY_RUN rp a w) = w ∧
   ∀ p, OsRemove p ∉ output (Purge_body DRY_RUN rp a w)) ∨
  (world (Purge_body DRY_RUN rp a w) =
     mkWorld (delete_where_path (path a) (files w)) (delete (path a) (fs w)) ∧
   output (Purge_body DRY_RUN rp a w) =
     [Print ("Purging file: " +:+ path a); SqlDelete (path a);
      OsRemove (path a)]).
Proof.
  destruct (Purge_body_cases DRY_RUN rp a w) as [[Hp ->]|(_ & Hw & Hwarn & _)].
  - destruct DRY_RUN.
    { intros _. left. run_simpl. split; [done|].
      intros p Hin. cbn [app] in Hin. inv_elem Hin; done. }
    destruct (Purge_commit_step (path a) w) as [[_ ->]|(e & -> & _)]; [|done].
    intros _. by right.
  - intros _. left. split; [done|]. intros p Hin.
    rewrite Forall_forall in Hwarn. by destruct (Hwarn _ Hin) as [m ?].
Qed.

Lemma Purge_loop_in_step (DRY_RUN : bool) (rp : string) (l : list Row)
  (w : World) :
  let run := for_each l (Purge_body DRY_RUN rp) w in
  result run = Ok () →
  files (world run) =
    filter (λ r, OsRemove (path r) ∉ output run) (files w) ∧
  ∀ p, fs (world run) !! p =
       if decide (OsRemove p ∈ output run) then None else fs w !! p.
Proof.
  cbn zeta. revert w. induction l as [|a l IH]; intros w.
  { intros _. cbn [for_each mret M_ret world output]. split.
    - symmetry. apply filter_all. intros r _. apply not_elem_of_nil.
    - intros p. rewrite decide_False; [done|apply not_elem_of_nil]. }
  rewrite for_each_cons.
  destruct (result (Purge_body DRY_RUN rp a w)) as [[]|e] eqn:Hres; [|done].
  cbn [result world output]. intros Hrest.
  destruct (IH _ Hrest) as [Hfiles Hfs].
  destruct (Purge_body_Ok DRY_RUN rp a w Hres) as [[Hw Hno]|[Hw Hout]].
  - rewrite Hw in *. split.
    + rewrite Hfiles. apply filter_ext_in. intros r _.
      rewrite elem_of_app. specialize (Hno (path r)). tauto.
    + intros p. rewrite Hfs.
      destruct (decide (OsRemove p ∈ _)) as [Hin|Hnin];
        destruct (decide (OsRemove p ∈ _ ++ _)) as [Hin'|Hnin']; try done.
      * destruct Hnin'. apply elem_of_app. by right.
      * apply elem_of_app in Hin' as [?|?]; [by destruct (Hno p)|done].
  - rewrite Hw, Hout in *. cbn [files fs] in *. split.
    + rewrite Hfiles. unfold delete_where_path. rewrite list_filter_filter.
      apply filter_ext_in. intros r _.
      rewrite elem_of_app, !elem_of_cons, elem_of_nil. split.
      * intros [Hnin Hne] [[?|[?|[[= ?]|[]]]]|?]; done.
      * intros Hnin. split; [tauto|]. intros Heq. apply Hnin. left.
        rewrite Heq. auto.
    + intros p. rewrite Hfs.
      destruct (decide (OsRemove p ∈ _)) as [Hin|Hnin];
        destruct (decide (OsRemove p ∈ _ ++ _)) as [Hin'|Hnin']; try done.
      * destruct Hnin'. apply elem_of_app. by right.
      * apply elem_of_app in Hin' as [Hin'|?]; [|done].
        inv_elem Hin'; try done. injection Hin' as ->.
        apply lookup_delete_eq.
      * apply lookup_delete_ne. intros Heq. apply Hnin'.
        apply elem_of_app. left. rewrite <- Heq.
        apply elem_of_cons. right. apply elem_of_cons. right. by left.
Qed.

(** X18. When [Purge] returns, table and disk are in step: the records it has
    deleted are those of the paths it has unlinked, and the files it has
    unlinked are gone. *)
Theorem Purge_in_step (DRY_RUN : bool) (thePath : string) (w0 : World) :
  let run := Purge DRY_RUN thePath w0 in
  result run = Ok () →
  files (world run) =
    filter (λ r, OsRemove (path r) ∉ output run) (files w0) ∧
  ∀ p, OsRemove p ∈ output run → fs (world run) !! p = None.
Proof.
  cbn zeta. rewrite Purge_eq. intros Hres.
  destruct (Purge_loop_in_step DRY_RUN (abspath thePath) _ w0 Hres)
    as [Hfiles Hfs].
  split; [done|]. intros p Hp. by rewrite Hfs, decide_True.
Qed.

(** ** Database.Remove *)

Lemma Remove_eq (DRY_RUN : bool) (thePath : string) (w : World) :
  Remove DRY_RUN thePath w =
  for_each (select_where_path_like (abspath thePath +:+ "%") (files w))
           (Remove_body DRY_RUN) w.
Proof.
  unfold Remove, mbind, M_bind, fetchall. cbn [result world output].
  by rewrite app_nil_l, <- Run_eta.
Qed.

Lemma Remove_body_eq (DRY_RUN : bool) (r : Row) (w : World) :
  Remove_body DRY_RUN r w =
  mkRun (Ok ())
    (if DRY_RUN then w
     else mkWorld (delete_where_path (path r) (files w)) (fs w))
    (Print ("Removing " +:+ path r +:+ " from the database") ::
     (if DRY_RUN then [Warning "... Just kidding, this is a dry run"]
      else [SqlDelete (path r)])).
Proof. unfold Remove_body. by destruct DRY_RUN. Qed.

Lemma Remove_loop (rows : list Row) (w : World) :
  let run := for_each rows (Remove_body false) w in
  result run = Ok () ∧
  fs (world run) = fs w ∧
  files (world run) = filter (λ x, path x ∉ path <$> rows) (files w) ∧
  Forall (λ ev, ∀ p, ev ≠ OsRemove p) (output run).
Proof.
  revert w. induction rows as [|a rows IH]; intros w; cbn zeta.
  - simpl. split_and!; try done.
    symmetry. apply filter_all. intros x _ Hx. by apply elem_of_nil in Hx.
  - rewrite for_each_cons, Remove_body_eq. cbn [result world output].
    destruct (IH (mkWorld (delete_where_path (path a) (files w)) (fs w)))
      as (Hres & Hfs & Hfiles & Hout).
    split_and!; try done.
    + rewrite Hfiles. cbn [files]. unfold delete_where_path.
      rewrite list_filter_filter. apply list_filter_iff. intros x.
      rewrite fmap_cons, not_elem_of_cons. tauto.
    + repeat constructor; try done.
Qed.

(** What [Remove] does when it commits: it deletes the records whose path
    matches the pattern of [like], and no file. *)
Lemma Remove_spec (thePath : string) (w : World) :
  let run := Remove false thePath w in
  result run = Ok () ∧
  fs (world run) = fs w ∧
  files (world run) =
    filter (λ x, like (abspath thePath +:+ "%") (path x) ≠ true) (files w) ∧
  Forall (λ ev, ∀ p, ev ≠ OsRemove p) (output run).
Proof.
  cbn zeta. rewrite Remove_eq.
  destruct (Remove_loop
              (select_where_path_like (abspath thePath +:+ "%") (files w)) w)
    as (Hres & Hfs & Hfiles & Hout).
  split_and!; try done. rewrite Hfiles.
  apply filter_ext_in. intros x Hx. split.
  - intros Hnot Hlike. apply Hnot. apply list_elem_of_fmap_2.
    by apply list_elem_of_filter.
  - intros Hnot (y & Hy & [Hlike _]%list_elem_of_filter)%list_elem_of_fmap.
    apply Hnot. by rewrite Hy.
Qed.

(** X13. For an argument without wild cards, [Remove] deletes the records whose
    path begins with the argument, character by character. *)
Lemma Remove_prefix (thePath : string) (w : World) (x : Row) :
  literal (abspath thePath) →
  x ∈ files (world (Remove false thePath w)) ↔
  x ∈ files w ∧ ¬ ∃ rest, path x = abspath thePath +:+ rest.
Proof.
  intros Hlit. destruct (Remove_spec thePath w) as (_ & _ & -> & _).
  rewrite list_elem_of_filter, <- (like_prefix _ _ Hlit). tauto.
Qed.

(** X14. [Remove] twice is [Remove] once: after a committing [Remove], the
    table has no record that the pattern matches, and a second [Remove]
    prints nothing and changes nothing. *)
Theorem Remove_idempotent (DRY_RUN : bool) (thePath : string) (w : World) :
  let w1 := world (Remove false thePath w) in
  select_where_path_like (abspath thePath +:+ "%") (files w1) = [] ∧
  Remove DRY_RUN thePath w1 = mkRun (Ok ()) w1 [].
Proof.
  cbn zeta.
  assert (select_where_path_like (abspath thePath +:+ "%")
            (files (world (Remove false thePath w))) = []) as Hnone.
  { destruct (Remove_spec thePath w) as (_ & _ & -> & _).
    apply elem_of_nil_inv. intros x [Hx [Hnx _]%list_elem_of_filter]%list_elem_of_filter.
    done. }
  split; [done|]. rewrite (Remove_eq DRY_RUN), Hnone. done.
Qed.

(** X19. [Remove], dry or not, touches no file and only takes records
    away. *)
Theorem Remove_keeps_files (DRY_RUN : bool) (thePath : string) (w : World) :
  let run := Remove DRY_RUN thePath w in
  fs (world run) = fs w ∧
  files (world run) `sublist_of` files w ∧
  Forall (λ ev, ∀ p, ev ≠ OsRemove p) (output run).
Proof.
  cbn zeta. rewrite Remove_eq.
  set (rows := select_where_path_like (abspath thePath +:+ "%") (files w)).
  destruct (for_each_invariant_Forall
              (λ v, fs v = fs w ∧ files v `sublist_of` files w)
              (λ ev, ∀ p, ev ≠ OsRemove p)
              rows (Remove_body DRY_RUN) w) as [[? ?] ?]; [done| |done].
  intros a v _ [Hfs Hsub]. rewrite Remove_body_eq. cbn [world output].
  destruct DRY_RUN.
  - split; [done|]. by repeat constructor.
  - cbn [files fs]. split_and!; [done| |by repeat constructor].
    etrans; [apply sublist_filter|done].
Qed.

(** ** HashDir *)

Lemma HashDir_eq (walk : list (string * list string * list string))
  (w : World) :
  HashDir true walk w = for_each (walked walk) scan w.
Proof.
  unfold HashDir, walked. rewrite <- (for_each_concat walked_in).
  apply for_each_ext. intros [[root dirs] fls] v.
  unfold walked_in. by rewrite for_each_fmap.
Qed.

Lemma hash_at_fs (w w' : World) (p : string) :
  fs w' = fs w → hash_at w' p = hash_at w p.
Proof.
  intros Hfs. unfold hash_at. rewrite !HashFile_spec, Hfs.
  by destruct (resolve (fs w !! p)) as [[content [|]|[|]]|].
Qed.

Lemma scan_step (p : string) (w : World) :
  resolve (fs w !! p) ≠ Some (Directory true) →
  scan p w =
  mkRun (Ok ()) (world (write (hash_at w p) p w))
        (output (HashFile p w) ++ output (write (hash_at w p) p w)) ∧
  Forall warning (output (HashFile p w)).
Proof.
  intros Hdir. unfold scan, hash_at, mbind, M_bind.
  destruct (write_frame (match result (HashFile p w) with
                         | Ok h => h | Raise _ => None end) p w p)
    as (Hres & _).
  revert Hres. rewrite !HashFile_spec.
  destruct (resolve (fs w !! p)) as [[content [|]|[|]]|]; try done;
    cbn [result world output]; intros ->; (split; [done|]);
    repeat constructor; by eexists.
Qed.

Lemma scan_loop (l : list string) (w : World) :
  NoDup (path <$> files w) →
  (∀ p, p ∈ l → resolve (fs w !! p) ≠ Some (Directory true)) →
  let run := for_each l scan w in
  result run = Ok () ∧ fs (world run) = fs w ∧
  NoDup (path <$> files (world run)) ∧
  (∀ p, p ∈ l →
        select_where_path p (files (world run)) = [mkRow p (hash_at w p)]) ∧
  (∀ q, q ∉ l →
        select_where_path q (files (world run)) =
        select_where_path q (files w)) ∧
  Forall (λ ev, ∀ q, ev ≠ OsRemove q ∧ ev ≠ SqlDelete q) (output run).
Proof.
  cbn zeta. revert w. induction l as [|p l IH]; intros w Hnd Hdir.
  { simpl. split_and!; try done. by intros p ?%elem_of_nil. }
  destruct (scan_step p w) as [Hscan Hwarn]; [apply Hdir; by left|].
  destruct (write_NoDup (hash_at w p) p w Hnd) as [Hnd1 Hsel1].
  set (w1 := world (write (hash_at w p) p w)) in *.
  assert (fs w1 = fs w) as Hfs1 by apply (write_frame _ _ _ p).
  destruct (IH w1) as (Hres & Hfs & Hnd' & Hin & Hout & Hev); [done| |].
  { intros q Hq. rewrite Hfs1. apply Hdir. by right. }
  rewrite for_each_cons, Hscan. cbn [result world output]. fold w1.
  split_and!; try done.
  - by rewrite Hfs.
  - intros q Hq. destruct (decide (q ∈ l)) as [Hl|Hl].
    + rewrite (Hin q Hl). by rewrite (hash_at_fs w w1).
    + apply elem_of_cons in Hq as [->|?]; [|done]. by rewrite (Hout p Hl).
  - intros q Hq. apply not_elem_of_cons in Hq as [Hne Hq].
    rewrite (Hout q Hq). by apply write_frame.
  - rewrite !Forall_app. split_and!; [| |done].
    + eapply Forall_impl; [done|]. by intros ev [m ->] q.
    + subst w1. rewrite write_eq.
      destruct (select_where_path p (files w)) as [|first others];
        cbn zeta; repeat case_bool_decide; cbn [output app];
        repeat (apply Forall_cons_2; [by intros q|]); apply Forall_nil_2.
Qed.

(** X15. A scan all of whose paths are text and for each of whose paths
    [HashFile] returns completes and leaves the file system as it is; it
    keeps the table at one record per path; each path of the walk then has
    its record, with the hash that [HashFile] returns for it, a digest or
    NULL; the records of the other paths are as before; and it deletes
    nothing. *)
Theorem HashDir_records (walk : list (string * list string * list string))
  (w : World) :
  NoDup (path <$> files w) →
  (∀ p, p ∈ walked walk → text p ∧ completes (HashFile p w)) →
  let run := HashDir true walk w in
  result run = Ok () ∧ fs (world run) = fs w ∧
  NoDup (path <$> files (world run)) ∧
  (∀ p, p ∈ walked walk →
        select_where_path p (files (world run)) = [mkRow p (hash_at w p)]) ∧
  (∀ q, q ∉ walked walk →
        select_where_path q (files (world run)) =
        select_where_path q (files w)) ∧
  Forall (λ ev, ∀ q, ev ≠ OsRemove q ∧ ev ≠ SqlDelete q) (output run).
Proof.
  intros Hnd Hok. cbn zeta. rewrite HashDir_eq. apply scan_loop; [done|].
  intros p Hp. by apply HashFile_completes, Hok.
Qed.

Lemma scan_idle (l : list string) (w : World) :
  (∀ p, p ∈ l → resolve (fs w !! p) ≠ Some (Directory true)) →
  (∀ p, p ∈ l → select_where_path p (files w) = [mkRow p (hash_at w p)]) →
  result (for_each l scan w) = Ok () ∧
  world (for_each l scan w) = w ∧
  Forall warning (output (for_each l scan w)).
Proof.
  intros Hdir Hsel. induction l as [|p l IH]; [by split_and!|].
  destruct (scan_step p w) as [Hscan Hwarn]; [apply Hdir; by left|].
  assert (write (hash_at w p) p w = mkRun (Ok ()) w []) as Hwrite.
  { rewrite write_eq, Hsel by (by left). cbn zeta.
    rewrite bool_decide_eq_false_2 by (by intros ?).
    rewrite bool_decide_eq_false_2 by (simpl; lia).
    by destruct w. }
  rewrite for_each_cons, Hscan, Hwrite. cbn [result world output].
  destruct IH as (Hres & Hw & Hout).
  { intros q Hq. apply Hdir. by right. }
  { intros q Hq. apply Hsel. by right. }
  rewrite Hw. split_and!; try done.
  rewrite app_nil_r. by apply Forall_app.
Qed.

(** X16. A second scan of the same walk changes nothing: it writes no record
    and logs only the warnings of [HashFile]. *)
Theorem HashDir_rescan (walk : list (string * list string * list string))
  (w : World) :
  NoDup (path <$> files w) →
  (∀ p, p ∈ walked walk → resolve (fs w !! p) ≠ Some (Directory true)) →
  let w' := world (HashDir true walk w) in
  result (HashDir true walk w') = Ok () ∧
  world (HashDir true walk w') = w' ∧
  Forall warning (output (HashDir true walk w')).
Proof.
  intros Hnd Hdir. cbn zeta. rewrite !HashDir_eq.
  destruct (scan_loop (walked walk) w Hnd Hdir) as (_ & Hfs & _ & Hin & _).
  apply scan_idle.
  - intros p Hp. rewrite Hfs. by apply Hdir.
  - intros p Hp. rewrite (Hin p Hp). by rewrite (hash_at_fs w _ p Hfs).
Qed.

Lemma isfile_at_fs (w w' : World) (p : string) :
  fs w' = fs w → isfile_at w' p = isfile_at w p.
Proof. intros Hfs. unfold isfile_at, os_path_isfile. simpl. by rewrite Hfs. Qed.

(** X17. A check right after a scan that came to every record of the table
    rewrites no hash: it only drops the records whose path is not a
    regular file. *)
Theorem HashDir_then_Integrity
  (walk : list (string * list string * list string)) (w : World) :
  NoDup (path <$> files w) →
  (∀ p, p ∈ walked walk → resolve (fs w !! p) ≠ Some (Directory true)) →
  (∀ r, r ∈ files w → path r ∈ walked walk) →
  let w' := world (HashDir true walk w) in
  result (Integrity false w') = Ok () ∧
  files (world (Integrity false w')) =
  filter (λ r, isfile_at w (path r) = true) (files w').
Proof.
  intros Hnd Hdir Hall. cbn zeta. rewrite HashDir_eq.
  destruct (scan_loop (walked walk) w Hnd Hdir)
    as (_ & Hfs & _ & Hin & Hout & _).
  set (w' := world (for_each (walked walk) scan w)) in *.
  rewrite Integrity_eq. split; [apply Integrity_loop_completes|].
  rewrite (Integrity_loop_table _ w') by
    (try done; intros r Hr; right; by apply elem_of_order_by).
  rewrite (filter_ext_in _ (λ r, isfile_at w (path r) = true))
    by (intros r _; by rewrite (isfile_at_fs w w')).
  apply fmap_fixed. intros r [_ Hr]%list_elem_of_filter.
  assert (r ∈ select_where_path (path r) (files w')) as Hsel
    by by apply list_elem_of_filter.
  destruct (decide (path r ∈ walked walk)) as [Hw|Hw].
  - rewrite (Hin _ Hw) in Hsel. apply list_elem_of_singleton in Hsel.
    rewrite (hash_at_fs w w') by done. by rewrite <- Hsel.
  - rewrite (Hout _ Hw) in Hsel.
    apply list_elem_of_filter in Hsel as [_ Hsel]. destruct Hw. by apply Hall.
Qed.

(** ** Dry runs *)

Lemma quiet_Integrity_body (r : Row) : quiet (Integrity_body true r).
Proof.
  intros w. rewrite Integrity_body_eq.
  destruct (resolve (fs w !! path r)) as [[content [|]|[|]]|]; cbn zeta;
    try case_bool_decide; cbn [world output app];
    (split; [done|]); by repeat constructor.
Qed.

Lemma quiet_Purge_body (rp : string) (cand : Row) :
  quiet (Purge_body true rp cand).
Proof.
  intros w.
  destruct (Purge_body_cases true rp cand w) as [[_ ->]|(_ & -> & Hwarn & _)].
  - run_simpl. split; [done|]. by repeat constructor.
  - split; [done|]. by apply warning_report.
Qed.

Lemma quiet_Remove_body (r : Row) : quiet (Remove_body true r).
Proof. intros w. rewrite Remove_body_eq. split; [done|]. by repeat constructor. Qed.

Lemma quiet_run_command (c : Command) : quiet (run_command true c).
Proof.
  destruct c as [|p|p]; cbn [run_command].
  - unfold Integrity. apply quiet_bind; [apply quiet_fetchall|].
    intros rows. apply quiet_for_each, quiet_Integrity_body.
  - unfold Purge. apply quiet_bind; [apply quiet_fetchall|].
    intros rows. apply quiet_for_each, quiet_Purge_body.
  - unfold Remove. apply quiet_bind; [apply quiet_fetchall|].
    intros rows. apply quiet_for_each, quiet_Remove_body.
Qed.

(** What one turn of [Integrity] reports depends on the record and on the
    file system only. *)
Lemma Integrity_body_decisions (d1 d2 : bool) (r : Row) (v1 v2 : World) :
  fs v1 = fs v2 →
  decisions (output (Integrity_body d1 r v1)) =
  decisions (output (Integrity_body d2 r v2)).
Proof.
  intros Hfs. rewrite !Integrity_body_eq, Hfs.
  destruct (resolve (fs v2 !! path r)) as [[content [|]|[|]]|]; cbn zeta;
    try case_bool_decide; cbn [output app];
    rewrite ?decisions_cons; cbn [decision];
    by destruct d1, d2.
Qed.

(** A candidate that fails a check has the same turn in a dry run and in
    a run that commits. *)
Lemma Purge_body_refusal (d1 d2 : bool) (rp : string) (cand : Row)
  (w : World) :
  ¬ purgeable rp w cand →
  Purge_body d1 rp cand w = Purge_body d2 rp cand w.
Proof.
  intros Hnp. unfold Purge_body.
  destruct (sameDir rp (path cand)) eqn:Hdir; cbn [negb]; [|done].
  rewrite !(bind_Ok (fetchall _) _ w (select_where_hash (hash cand) (files w)))
    by done.
  cbn [fetchall world output].
  set (duplicates := select_where_hash (hash cand) (files w)) in *.
  destruct (Purge_check_loop_spec duplicates false w) as (Hw & _ & Hr & _).
  destruct (result (for_each_with duplicates false Purge_check w))
    as [[|]|e] eqn:Hres.
  - by rewrite !(bind_Ok _ _ _ _ Hres).
  - rewrite !(bind_Ok _ _ _ _ Hres). destruct (Hr eq_refl) as [_ Hfresh].
    cbn [result world output]. case_bool_decide as Hlen; [done|].
    rewrite Hw.
    rewrite !(bind_Ok (fetchall _) _ w duplicates) by done.
    cbn [fetchall world output]. case_bool_decide as Hcount; [done|].
    destruct Hnp. unfold purgeable. cbn zeta. fold duplicates.
    split_and!; [done|done|lia|done].
  - by rewrite !(bind_Raise _ _ _ _ Hres).
Qed.

Lemma Purge_body_decisions (rp : string) (cand : Row) (w : World) :
  decisions (output (Purge_body true rp cand w)) =
  decisions (output (Purge_body false rp cand w)).
Proof.
  destruct (Purge_body_cases true rp cand w) as [[Hp ->]|(Hnp & _)].
  - destruct (Purge_body_cases false rp cand w) as [[_ ->]|(Hnp & _)];
      [|done].
    destruct (Purge_commit_step (path cand) w) as [[_ ->]|(e & -> & _)];
      by run_simpl.
  - by rewrite (Purge_body_refusal true false).
Qed.

(** C4 (amended). Dry run: a dry run of any sequence of verify, purge and
    remove leaves the table and the file system as they are and only
    reports; one verify, and one remove, report the same decisions in a
    dry run and in a run that commits, lines printed and warnings logged
    alike, the notice of the dry run apart; and one candidate of a purge
    gets the same reported decision in both, when both take it in the
    same world. *)
Theorem dry_run_invariance :
  (∀ cs w,
     world (run_commands true cs w) = w ∧
     Forall report (output (run_commands true cs w))) ∧
  (∀ w, decisions (output (Integrity true w)) =
        decisions (output (Integrity false w))) ∧
  (∀ thePath w, decisions (output (Remove true thePath w)) =
                decisions (output (Remove false thePath w))) ∧
  (∀ theRealPath cand w,
     decisions (output (Purge_body true theRealPath cand w)) =
     decisions (output (Purge_body false theRealPath cand w))).
Proof.
  split_and!.
  - intros cs w. apply quiet_for_each, quiet_run_command.
  - intros w. rewrite !Integrity_eq.
    apply (for_each_decisions (λ v1 v2, fs v1 = fs v2)); [done|].
    intros a v1 v2 _ Hfs. rewrite !Integrity_body_completes, !Integrity_body_fs.
    split_and!; try done. by apply Integrity_body_decisions.
  - intros thePath w. rewrite !Remove_eq.
    apply (for_each_decisions (λ _ _, True)); [done|].
    intros a v1 v2 _ _. by rewrite !Remove_body_eq.
  - apply Purge_body_decisions.
Qed.

(** ** Completion *)

Lemma Purge_loop_completes (DRY_RUN : bool) (rp : string) (l : list Row)
  (w : World) :
  NoDup (path <$> l) →
  (∀ r, r ∈ l → r ∈ files w) →
  (∀ r, r ∈ files w → resolve (fs w !! path r) ≠ Some (Directory true)) →
  (DRY_RUN = true ∨
   ∀ r e, r ∈ files w → fs w !! path r = Some e → removable e = true) →
  result (for_each l (Purge_body DRY_RUN rp) w) = Ok ().
Proof.
  revert w. induction l as [|a l IH]; intros w Hnd Hin Hnodir Hrm; [done|].
  apply NoDup_cons in Hnd as [Hfresh Hnd].
  rewrite for_each_cons.
  destruct (Purge_body_cases DRY_RUN rp a w)
    as [[Hpurge Hrun]|(_ & Hw & _ & Hraise)].
  - rewrite Hrun. destruct DRY_RUN.
    { run_simpl. apply IH; try done. intros r Hr. apply Hin. by right. }
    assert (a ∈ files w) as Ha by (apply Hin; by left).
    pose proof (purgeable_in_group _ _ _ Hpurge Ha) as Hgroup.
    destruct Hpurge as (_ & Hall & _). rewrite Forall_forall in Hall.
    destruct (fresh_regular w a (Hall a Hgroup)) as (content & rm & Hfs).
    destruct Hrm as [?|Hrm]; [done|].
    pose proof (Hrm a _ Ha Hfs) as Htrue. simpl in Htrue. subst rm.
    rewrite (Purge_commit_step_Ok _ _ _ Hfs). cbn [result world].
    apply IH; cbn [files fs]; try done.
    + intros r Hr. apply list_elem_of_filter. split; [|apply Hin; by right].
      intros Heq. apply Hfresh. rewrite <- Heq. by apply list_elem_of_fmap_2.
    + intros r [Hne Hr]%list_elem_of_filter.
      rewrite lookup_delete_ne by done. by apply Hnodir.
    + right. intros r e [Hne Hr]%list_elem_of_filter.
      rewrite lookup_delete_ne by done. by apply Hrm.
  - destruct (result (Purge_body DRY_RUN rp a w)) as [[]|e] eqn:Hres.
    + cbn [result]. rewrite Hw. apply IH; try done.
      intros r Hr. apply Hin. by right.
    + destruct (Hraise e eq_refl) as (x & [_ Hx]%list_elem_of_filter & _ & Hdir).
      by destruct (Hnodir x Hx).
Qed.

(** A candidate in scope that fails a check: the turn completes, changes
    nothing and logs a warning. *)
Lemma Purge_body_refuses (DRY_RUN : bool) (rp : string) (cand : Row)
  (w : World) :
  let group := select_where_hash (hash cand) (files w) in
  sameDir rp (path cand) = true →
  Forall (λ x, resolve (fs w !! path x) ≠ Some (Directory true)) group →
  Exists (λ x, ¬ fresh w x) group ∨
    ((2 ≤ List.length group)%nat ∧ Purge_count cand group ≠ 1) →
  result (Purge_body DRY_RUN rp cand w) = Ok () ∧
  world (Purge_body DRY_RUN rp cand w) = w ∧
  Forall warning (output (Purge_body DRY_RUN rp cand w)) ∧
  output (Purge_body DRY_RUN rp cand w) ≠ [].
Proof.
  intros group Hscope Hnodir Hfail. unfold Purge_body.
  rewrite Hscope. cbn [negb].
  rewrite (bind_Ok (fetchall _) _ w group) by done.
  cbn [fetchall world output]. rewrite !app_nil_l.
  destruct (Purge_check_loop_spec group false w)
    as (Hw & Ho & Hr & He & Hq).
  destruct (result (for_each_with group false Purge_check w))
    as [[|]|e] eqn:Hres.
  - rewrite (bind_Ok _ _ _ _ Hres). cbn [result world output].
    rewrite Hw, app_nil_r. split_and!; try done.
    intros Hnil. pose proof (Hq Hnil Hnodir) as Hfresh.
    by rewrite (Purge_check_loop_fresh _ _ _ Hfresh) in Hres.
  - destruct (Hr eq_refl) as [_ Hfresh].
    destruct Hfail as [Hex|[Hlen Hcount]].
    { apply Exists_exists in Hex as (x & Hx & Hnot).
      rewrite Forall_forall in Hfresh. by destruct (Hnot (Hfresh x Hx)). }
    rewrite (bind_Ok _ _ _ _ Hres).
    rewrite (Purge_check_loop_fresh _ _ _ Hfresh).
    cbn [result world output]. rewrite !app_nil_l.
    rewrite bool_decide_eq_false_2 by lia.
    rewrite (bind_Ok (fetchall _) _ w group) by done.
    cbn [fetchall world output]. rewrite !app_nil_l.
    rewrite bool_decide_eq_true_2 by done.
    split_and!; try done. repeat constructor. by eexists.
  - destruct (He e eq_refl) as (x & Hx & _ & Hdir).
    rewrite Forall_forall in Hnodir. by destruct (Hnodir x Hx).
Qed.

(** C6 (amended). Batches and errors: [Integrity] always completes, and
    [Remove] completes for an argument that sqlite takes as a pattern.  A
    candidate of [Purge] in scope, for each of whose duplicates [HashFile]
    returns, and one of whose duplicates is a link, is absent, unreadable
    or stale, or which is not alone in its directory, has a turn that
    completes, changes nothing and logs a warning.  And [Purge] completes
    when its argument is such a pattern, the table has one record per
    path, [HashFile] returns for every recorded path, and the run is dry
    or every recorded file can be unlinked.  (Outside these conditions the
    exception of [os.remove], of [HashFile] or of sqlite ends the run.) *)
Theorem batch_completion :
  (∀ DRY_RUN w, result (Integrity DRY_RUN w) = Ok ()) ∧
  (∀ DRY_RUN thePath w,
     like_pattern (abspath thePath +:+ "%") →
     result (Remove DRY_RUN thePath w) = Ok ()) ∧
  (∀ DRY_RUN theRealPath cand w,
     let group := select_where_hash (hash cand) (files w) in
     sameDir theRealPath (path cand) = true →
     Forall (λ x, completes (HashFile (path x) w)) group →
     Exists (λ x, ¬ fresh w x) group ∨
       ((2 ≤ List.length group)%nat ∧ Purge_count cand group ≠ 1) →
     result (Purge_body DRY_RUN theRealPath cand w) = Ok () ∧
     world (Purge_body DRY_RUN theRealPath cand w) = w ∧
     Forall warning (output (Purge_body DRY_RUN theRealPath cand w)) ∧
     output (Purge_body DRY_RUN theRealPath cand w) ≠ []) ∧
  (∀ DRY_RUN thePath w,
     like_pattern (abspath thePath +:+ "%") →
     NoDup (path <$> files w) →
     (∀ r, r ∈ files w → completes (HashFile (path r) w)) →
     (DRY_RUN = true ∨
      ∀ r e, r ∈ files w → fs w !! path r = Some e → removable e = true) →
     result (Purge DRY_RUN thePath w) = Ok ()).
Proof.
  split_and!.
  - intros DRY_RUN w. rewrite Integrity_eq. apply Integrity_loop_completes.
  - intros DRY_RUN thePath w _. rewrite Remove_eq.
    apply (for_each_completes (λ _, True)); [done|].
    intros a v _ _. by rewrite Remove_body_eq.
  - intros DRY_RUN rp cand w group Hscope Hhash.
    apply Purge_body_refuses; [done|].
    eapply Forall_impl; [done|]. intros x. apply HashFile_completes.
  - intros DRY_RUN thePath w _ Hnd Hhash Hrm. rewrite Purge_eq.
    apply Purge_loop_completes; try done.
    + by apply NoDup_fmap_filter.
    + by intros r [_ Hr]%list_elem_of_filter.
    + intros r Hr. by apply HashFile_completes, Hhash.
Qed.

End Properties.

(** * Scenarios *)

(** Scenario A of the specification: the purge of [/a] deletes [/a/x.txt]
    and its record, and [/b/x.txt] stays. *)
Example scenario_A_purge :
  let run := Purge (H := demo_platform) false "/a" scenario_A in
  result run = Ok () ∧
  files (world run) = [mkRow "/b/x.txt" (Some "H")] ∧
  fs (world run) !! "/a/x.txt" = None ∧
  fs (world run) !! "/b/x.txt" = Some (plain "H") ∧
  output run =
    [Print "Purging file: /a/x.txt"; SqlDelete "/a/x.txt";
     OsRemove "/a/x.txt"].
Proof. vm_compute. by split_and!. Qed.

(** Scenario B of the specification: the purge of [/a] deletes neither
    file, and logs a refusal for each. *)
Example scenario_B_purge :
  let run := Purge (H := demo_platform) false "/a" scenario_B in
  result run = Ok () ∧
  world run = scenario_B ∧
  output run =
    [Warning
       "Refusing to purge /a/x.txt (Duplicate of file in same directory)";
     Warning
       "Refusing to purge /a/y.txt (Duplicate of file in same directory)"].
Proof. vm_compute. by split_and!. Qed.

(** The purge of scenario A unlinks [/a/x.txt], and [Purge_safety] applies
    to it. *)
Lemma Purge_safety_witness :
  OsRemove "/a/x.txt" ∈ output (Purge (H := demo_platform) false "/a" scenario_A) ∧
  ∃ cand w,
    let group := select_where_hash (hash cand) (files w) in
    false = false ∧
    Purge_turn (H := demo_platform) false "/a" scenario_A cand w ∧
    path cand = "/a/x.txt" ∧ cand ∈ group ∧
    is_Some (hash cand) ∧
    result (HashFile (H := demo_platform) "/a/x.txt" w) = Ok (hash cand) ∧
    (∀ x, x ∈ group →
          result (HashFile (H := demo_platform) (path x) w) = Ok (hash x) ∧
          result (os_path_islink (path x) w) = Ok false) ∧
    filter (λ x, sameDir "/a/x.txt" (path x) = true) group = [cand] ∧
    (∀ x, x ∈ group → x ≠ cand →
          dirSegments (path x) ≠ dirSegments "/a/x.txt").
Proof.
  assert (OsRemove "/a/x.txt" ∈
          output (Purge (H := demo_platform) false "/a" scenario_A)) as Hev.
  { refine (bool_decide_unpack _ _). vm_compute. exact I. }
  split; [exact Hev|].
  exact (Purge_safety (H := demo_platform) false "/a" scenario_A "/a/x.txt" Hev).
Defined.

(** C2. [Remove] on [/old] deletes the record of [/older/x.txt] and of
    [/old/sub/deep/x.txt], which [sameDir], the scope filter of [Purge],
    places outside [/old]: it deletes every record whose path matches the
    pattern, and compares no segments. *)
Theorem Remove_raw_prefix :
  let run := Remove (H := demo_platform) false "/old" scenario_old in
  sameDir "/old" "/older/x.txt" = false ∧
  sameDir "/old" "/old/sub/deep/x.txt" = false ∧
  filter (λ r, sameDir "/old" (path r) = true) (files scenario_old) =
    [mkRow "/old/x.txt" (Some "H")] ∧
  files (world run) = [] ∧
  output run =
    [Print "Removing /old/x.txt from the database"; SqlDelete "/old/x.txt";
     Print "Removing /older/x.txt from the database"; SqlDelete "/older/x.txt";
     Print "Removing /old/sub/deep/x.txt from the database";
     SqlDelete "/old/sub/deep/x.txt"].
Proof. vm_compute. by split_and!. Qed.

(** Scenario A has one digest, and [DupCheck] prints nothing for it. *)
Lemma DupCheck_single_digest_silent_witness :
  (∀ r, r ∈ files scenario_A → hash r = Some "H") ∧
  result (DupCheck scenario_A) = Ok () ∧
  printed (output (DupCheck scenario_A)) = [] ∧
  output (DupCheck scenario_A) = [].
Proof.
  assert (∀ r, r ∈ files scenario_A → hash r = Some "H") as Hall.
  { intros r Hr. simpl in Hr. inv_elem Hr; by subst. }
  split; [exact Hall|].
  exact (DupCheck_single_digest_silent scenario_A (Some "H") Hall).
Defined.

(** Of two groups, [DupCheck] prints the first and not the last one. *)
Example DupCheck_two_groups :
  output (DupCheck scenario_two_groups) =
  [Print "Hash G"; Print "  /a/y"; Print "  /b/y"].
Proof. vm_compute. reflexivity. Qed.

(** A dry run of two purges reports a deletion that the run that commits
    does not make. *)
Lemma dry_run_reports_differ :
  let commands := [PurgeCmd "/a"; PurgeCmd "/b"] in
  let dry := run_commands (H := demo_platform) true commands scenario_A in
  let commit := run_commands (H := demo_platform) false commands scenario_A in
  result dry = Ok () ∧ result commit = Ok () ∧
  printed (output dry) = ["Purging file: /a/x.txt"; "Purging file: /b/x.txt"] ∧
  printed (output commit) = ["Purging file: /a/x.txt"] ∧
  ("Purging file: /b/x.txt" ∈ printed (output dry)) ∧
  ("Purging file: /b/x.txt" ∉ printed (output commit)).
Proof.
  intros commands dry commit.
  assert (printed (output dry) =
          ["Purging file: /a/x.txt"; "Purging file: /b/x.txt"]) as Hdry.
  { vm_compute. reflexivity. }
  assert (printed (output commit) = ["Purging file: /a/x.txt"]) as Hcommit.
  { vm_compute. reflexivity. }
  split_and!; [by vm_compute|by vm_compute|done|done| |].
  - rewrite Hdry. apply elem_of_cons. right. by left.
  - rewrite Hcommit. intros Hin. inv_elem Hin. done.
Qed.

(** One purge can differ as well: the dry run refuses [/a/b/f], which has a
    duplicate in a directory above it, and the run that commits has
    unlinked that duplicate by then. *)
Example dry_run_purge_differs :
  decisions (output (Purge (H := demo_platform) true "/a/b" scenario_ancestor)) =
    [Print "Purging file: /a/bg";
     Warning "Refusing to purge /a/b/f (Duplicate of file in same directory)"] ∧
  decisions (output (Purge (H := demo_platform) false "/a/b" scenario_ancestor)) =
    [Print "Purging file: /a/bg"; Print "Purging file: /a/b/f"].
Proof. split; vm_compute; reflexivity. Qed.



(** A file that cannot be unlinked ends the purge: the candidate after it,
    which a dry run reports as purged, is never looked at. *)
Lemma Purge_batch_aborts :
  let run := Purge (H := demo_platform) false "/a" scenario_batch in
  result run = Raise (PermissionError "/a/x.txt") ∧
  mkRow "/a/z.txt" (Some "G") ∈ files (world run) ∧
  is_Some (fs (world run) !! "/a/z.txt") ∧
  printed (output run) = ["Purging file: /a/x.txt"] ∧
  printed (output (Purge (H := demo_platform) true "/a" scenario_batch)) =
    ["Purging file: /a/x.txt"; "Purging file: /a/z.txt"].
Proof.
  intros run. split_and!.
  - vm_compute. reflexivity.
  - refine (bool_decide_unpack _ _). vm_compute. exact I.
  - refine (bool_decide_unpack _ _). vm_compute. exact I.
  - vm_compute. reflexivity.
  - vm_compute. reflexivity.
Qed.

(** A purge in which five candidates fail a check, each in its own way:
    it logs the failures, goes on to the candidate that passes, and
    completes. *)
Example Purge_batch_recovers :
  let run := Purge (H := demo_platform) false "/a" scenario_failures in
  result run = Ok () ∧
  output run =
    [Warning "File /b/x.txt no longer exists";
     Warning "Refusing to purge /b/x.txt (Hash changed)";
     Warning "Unable to read /a/u.txt";
     Warning "Refusing to purge /a/u.txt (Hash changed)";
     Warning "Refusing to process linked file /a/l.txt";
     Warning "Refusing to purge /a/s.txt (Hash changed)";
     Warning "Refusing to purge /a/d1.txt (Duplicate of file in same directory)";
     Warning "Refusing to purge /a/d2.txt (Duplicate of file in same directory)";
     Print "Purging file: /a/ok.txt"; SqlDelete "/a/ok.txt";
     OsRemove "/a/ok.txt"].
Proof. split; vm_compute; reflexivity. Qed.

(** That scenario meets the conditions under which [Purge] completes; and
    its candidate [/a/u.txt], which cannot be read, has a turn that
    completes, changes nothing and logs a warning. *)
Lemma batch_completion_witness :
  let cand := mkRow "/a/u.txt" (Some "K") in
  let group := select_where_hash (hash cand) (files scenario_failures) in
  ((like_pattern (abspath (Platform := demo_platform) "/a" +:+ "%") ∧
    NoDup (path <$> files scenario_failures) ∧
    Forall (λ r, completes (HashFile (H := demo_platform) (path r)
                              scenario_failures))
           (files scenario_failures) ∧
    Forall (λ r, ∀ e, fs scenario_failures !! path r = Some e →
                      removable e = true)
           (files scenario_failures)) ∧
   result (Purge (H := demo_platform) false "/a" scenario_failures) = Ok ()) ∧
  ((sameDir "/a" (path cand) = true ∧
    Forall (λ x, completes (HashFile (H := demo_platform) (path x)
                              scenario_failures)) group ∧
    Exists (λ x, ¬ fresh (H := demo_platform) scenario_failures x) group) ∧
   result (Purge_body (H := demo_platform) false "/a" cand scenario_failures)
     = Ok () ∧
   world (Purge_body (H := demo_platform) false "/a" cand scenario_failures)
     = scenario_failures ∧
   Forall warning
     (output (Purge_body (H := demo_platform) false "/a" cand
                scenario_failures)) ∧
   output (Purge_body (H := demo_platform) false "/a" cand scenario_failures)
     ≠ []).
Proof.
  cbn zeta.
  assert (like_pattern (abspath (Platform := demo_platform) "/a" +:+ "%"))
    as Hpat.
  { split; [vm_compute; reflexivity|]. vm_compute. by intros [=]. }
  assert (NoDup (path <$> files scenario_failures)) as Hnd.
  { refine (bool_decide_unpack _ _). vm_compute. exact I. }
  assert (Forall (λ r, completes (HashFile (H := demo_platform) (path r)
                                    scenario_failures))
                 (files scenario_failures)) as Hhash.
  { repeat constructor; eexists; vm_compute; reflexivity. }
  assert (Forall (λ r, ∀ e, fs scenario_failures !! path r = Some e →
                            removable e = true)
                 (files scenario_failures)) as Hrm.
  { repeat constructor; intros e; vm_compute; by intros [= <-]. }
  assert (sameDir "/a" (path (mkRow "/a/u.txt" (Some "K"))) = true) as Hscope
    by (vm_compute; reflexivity).
  assert (select_where_hash (hash (mkRow "/a/u.txt" (Some "K")))
            (files scenario_failures) =
          [mkRow "/a/u.txt" (Some "K"); mkRow "/b/u.txt" (Some "K")]) as Hgroup
    by (vm_compute; reflexivity).
  assert (Forall (λ x, completes (HashFile (H := demo_platform) (path x)
                                    scenario_failures))
            (select_where_hash (hash (mkRow "/a/u.txt" (Some "K")))
               (files scenario_failures))) as Hgh.
  { rewrite Hgroup. repeat constructor; eexists; vm_compute; reflexivity. }
  assert (Exists (λ x, ¬ fresh (H := demo_platform) scenario_failures x)
            (select_where_hash (hash (mkRow "/a/u.txt" (Some "K")))
               (files scenario_failures))) as Hex.
  { rewrite Hgroup. apply Exists_cons_hd. intros (_ & Hh & _).
    vm_compute in Hh. discriminate Hh. }
  split.
  - split; [exact (conj Hpat (conj Hnd (conj Hhash Hrm)))|].
    refine (proj2 (proj2 (proj2 (batch_completion (H := demo_platform))))
              false "/a" scenario_failures Hpat Hnd _ _).
    + intros r Hr. exact (proj1 (Forall_forall _ _) Hhash r Hr).
    + right. intros r e Hr. exact (proj1 (Forall_forall _ _) Hrm r Hr e).
  - split; [exact (conj Hscope (conj Hgh Hex))|].
    exact (proj1 (proj2 (proj2 (batch_completion (H := demo_platform))))
             false "/a" (mkRow "/a/u.txt" (Some "K")) scenario_failures
             Hscope Hgh (or_introl Hex)).
Defined.

(** [HashFile] raises for a path that is a directory. *)
Lemma HashFile_raises_for_directory :
  result (HashFile (H := demo_platform) "/d" scenario_directory) =
  Raise (IsADirectoryError "/d").
Proof. vm_compute. reflexivity. Qed.



(** [Integrity] on a record whose file cannot be read. *)
Lemma Integrity_unreadable_file_witness :
  let run := Integrity (H := demo_platform) false scenario_unreadable in
  (mkRow "/a/x" (Some "H") ∈ files scenario_unreadable ∧
   resolve (fs scenario_unreadable !! "/a/x") =
     Some (RegularFile [Byte.x48] false)) ∧
  Print ("File /a/x changed." +:+
         String "010" "  Old hash:H" +:+
         String "010" "  New hash:None") ∈ output run ∧
  SqlUpdate None "/a/x" ∈ output run ∧
  (∀ x, x ∈ files (world run) → path x = "/a/x" → hash x = None).
Proof.
  assert (mkRow "/a/x" (Some "H") ∈ files scenario_unreadable) as Hrow.
  { refine (bool_decide_unpack _ _). vm_compute. exact I. }
  assert (resolve (fs scenario_unreadable !! "/a/x") =
          Some (RegularFile [Byte.x48] false)) as Hfile.
  { vm_compute. reflexivity. }
  split; [exact (conj Hrow Hfile)|].
  destruct (Integrity_unreadable_file (H := demo_platform) false
              scenario_unreadable "/a/x" "H" [Byte.x48] Hrow Hfile)
    as (_ & _ & Hprint & _ & Hcommit).
  destruct (Hcommit eq_refl) as (Hupdate & _ & Hnone).
  exact (conj Hprint (conj Hupdate Hnone)).
Defined.

(** ** More scenarios *)

(** A file of [/a] is in the same directory as a path three levels below
    [/a]. *)
Lemma sameDir_above_witness :
  segment "x.txt" ∧
  sameDir ("/a" +:+ String "/" "b/c/y.txt") ("/a" +:+ String "/" "x.txt") = true.
Proof.
  assert (segment "x.txt") as Hseg by (vm_compute; reflexivity).
  split; [exact Hseg|].
  exact (sameDir_above "/a" "b/c/y.txt" "x.txt" Hseg).
Defined.

(** Three bytes read in blocks of two. *)
Lemma read_loop_block_size_witness :
  0 < 2 ∧
  read_loop 2 [] (read 2 [Byte.x48; Byte.x49; Byte.x4a]).1
            (read 2 [Byte.x48; Byte.x49; Byte.x4a]).2 =
  [] ++ [Byte.x48; Byte.x49; Byte.x4a].
Proof.
  assert (0 < 2) as Hn by lia.
  split; [exact Hn|].
  exact (read_loop_block_size 2 [] [Byte.x48; Byte.x49; Byte.x4a] Hn).
Defined.

(** A new hash written for a path of scenario A. *)
Lemma write_records_witness :
  NoDup (path <$> files scenario_A) ∧
  let w' := world (write (Some "G") "/a/x.txt" scenario_A) in
  result (write (Some "G") "/a/x.txt" scenario_A) = Ok () ∧
  NoDup (path <$> files w') ∧
  select_where_path "/a/x.txt" (files w') = [mkRow "/a/x.txt" (Some "G")] ∧
  (∀ q, q ≠ "/a/x.txt" →
        select_where_path q (files w') =
        select_where_path q (files scenario_A)) ∧
  fs w' = fs scenario_A.
Proof.
  assert (NoDup (path <$> files scenario_A)) as Hnd.
  { refine (bool_decide_unpack _ _). vm_compute. exact I. }
  split; [exact Hnd|].
  exact (write_records (Some "G") "/a/x.txt" scenario_A Hnd).
Defined.

(** The same hash written twice for a path of scenario A. *)
Lemma write_idempotent_witness :
  NoDup (path <$> files scenario_A) ∧
  write (Some "G") "/a/x.txt" (world (write (Some "G") "/a/x.txt" scenario_A)) =
  mkRun (Ok ()) (world (write (Some "G") "/a/x.txt" scenario_A)) [].
Proof.
  assert (NoDup (path <$> files scenario_A)) as Hnd.
  { refine (bool_decide_unpack _ _). vm_compute. exact I. }
  split; [exact Hnd|].
  exact (write_idempotent (Some "G") "/a/x.txt" scenario_A Hnd).
Defined.

(** Of the two groups of the scenario, the group of [G] is reported: [H]
    sorts after it. *)
Lemma DupCheck_reports_witness :
  let group := filter (λ r, hash r = Some "G") (files scenario_two_groups) in
  ((2 ≤ List.length group)%nat ∧
   ∃ r, r ∈ files scenario_two_groups ∧ sql_le (hash r) (Some "G") = false) ∧
  ∃ pre post,
    output (DupCheck scenario_two_groups) =
    pre ++ group_report (Some "G") (path <$> group) ++ post.
Proof.
  cbn zeta.
  assert (2 ≤ List.length
                (filter (λ r, hash r = Some "G") (files scenario_two_groups)))%nat
    as Hlen.
  { vm_compute. lia. }
  assert (∃ r, r ∈ files scenario_two_groups ∧
               sql_le (hash r) (Some "G") = false) as Hafter.
  { exists (mkRow "/a/x" (Some "H")). split; [|vm_compute; reflexivity].
    refine (bool_decide_unpack _ _). vm_compute. exact I. }
  split; [exact (conj Hlen Hafter)|].
  exact (DupCheck_reports scenario_two_groups (Some "G") Hlen Hafter).
Defined.

(** The file that the purge of scenario A unlinks is in [/a], and was in
    the table and on the disk. *)
Lemma Purge_scope_witness :
  OsRemove "/a/x.txt" ∈
    output (Purge (H := demo_platform) false "/a" scenario_A) ∧
  sameDir "/a" "/a/x.txt" = true ∧
  like ("/a" +:+ "%") "/a/x.txt" = true ∧
  (∃ r, r ∈ files scenario_A ∧ path r = "/a/x.txt") ∧
  is_Some (fs scenario_A !! "/a/x.txt").
Proof.
  assert (OsRemove "/a/x.txt" ∈
          output (Purge (H := demo_platform) false "/a" scenario_A)) as Hev.
  { refine (bool_decide_unpack _ _). vm_compute. exact I. }
  split; [exact Hev|].
  exact (Purge_scope (H := demo_platform) false "/a" scenario_A "/a/x.txt" Hev).
Defined.

(** After the purge of scenario A, the record of the copy in [/b] is in
    the table. *)
Lemma Purge_keeps_a_record_witness :
  OsRemove "/a/x.txt" ∈
    output (Purge (H := demo_platform) false "/a" scenario_A) ∧
  let w' := world (Purge (H := demo_platform) false "/a" scenario_A) in
  fs w' !! "/a/x.txt" = None ∧
  ∃ x, x ∈ files w' ∧ path x ≠ "/a/x.txt" ∧ truthy (hash x) = true ∧
       result (HashFile (H := demo_platform) "/a/x.txt" scenario_A) =
       Ok (hash x).
Proof.
  assert (OsRemove "/a/x.txt" ∈
          output (Purge (H := demo_platform) false "/a" scenario_A)) as Hev.
  { refine (bool_decide_unpack _ _). vm_compute. exact I. }
  split; [exact Hev|].
  exact (Purge_keeps_a_record (H := demo_platform) false "/a" scenario_A
           "/a/x.txt" Hev).
Defined.

(** [Remove] on [/old] keeps no record of a path that begins with
    [/old]. *)
Lemma Remove_prefix_witness :
  literal (abspath (Platform := demo_platform) "/old") ∧
  (mkRow "/older/x.txt" (Some "G") ∈
     files (world (Remove (H := demo_platform) false "/old" scenario_old)) ↔
   mkRow "/older/x.txt" (Some "G") ∈ files scenario_old ∧
   ¬ ∃ rest, path (mkRow "/older/x.txt" (Some "G")) =
             abspath (Platform := demo_platform) "/old" +:+ rest).
Proof.
  assert (literal (abspath (Platform := demo_platform) "/old")) as Hlit.
  { repeat constructor; vm_compute; by intros [=]. }
  split; [exact Hlit|].
  exact (Remove_prefix (H := demo_platform) "/old" scenario_old
           (mkRow "/older/x.txt" (Some "G")) Hlit).
Defined.

(** The scan of a regular file and of a link that dangles. *)
Lemma HashDir_records_witness :
  (NoDup (path <$> files scenario_scan) ∧
   ∀ p, p ∈ walked (H := demo_platform) walk_scan →
        text p ∧ completes (HashFile (H := demo_platform) p scenario_scan)) ∧
  let run := HashDir (H := demo_platform) true walk_scan scenario_scan in
  result run = Ok () ∧ fs (world run) = fs scenario_scan ∧
  NoDup (path <$> files (world run)) ∧
  (∀ p, p ∈ walked (H := demo_platform) walk_scan →
        select_where_path p (files (world run)) =
        [mkRow p (hash_at (H := demo_platform) scenario_scan p)]) ∧
  (∀ q, q ∉ walked (H := demo_platform) walk_scan →
        select_where_path q (files (world run)) =
        select_where_path q (files scenario_scan)) ∧
  Forall (λ ev, ∀ q, ev ≠ OsRemove q ∧ ev ≠ SqlDelete q) (output run).
Proof.
  assert (NoDup (path <$> files scenario_scan)) as Hnd.
  { refine (bool_decide_unpack _ _). vm_compute. exact I. }
  assert (∀ p, p ∈ walked (H := demo_platform) walk_scan →
               text p ∧
               completes (HashFile (H := demo_platform) p scenario_scan))
    as Hok.
  { intros p Hp.
    assert (walked (H := demo_platform) walk_scan = ["/a/x.txt"; "/a/gone"])
      as Hw by (vm_compute; reflexivity).
    rewrite Hw in Hp.
    inv_elem Hp; subst p; (split; [|eexists]); vm_compute; reflexivity. }
  split; [exact (conj Hnd Hok)|].
  exact (HashDir_records (H := demo_platform) walk_scan scenario_scan Hnd Hok).
Defined.

(** The same scan a second time. *)
Lemma HashDir_rescan_witness :
  (NoDup (path <$> files scenario_scan) ∧
   ∀ p, p ∈ walked (H := demo_platform) walk_scan →
        resolve (fs scenario_scan !! p) ≠ Some (Directory true)) ∧
  let w' := world (HashDir (H := demo_platform) true walk_scan scenario_scan) in
  result (HashDir (H := demo_platform) true walk_scan w') = Ok () ∧
  world (HashDir (H := demo_platform) true walk_scan w') = w' ∧
  Forall warning (output (HashDir (H := demo_platform) true walk_scan w')).
Proof.
  assert (NoDup (path <$> files scenario_scan)) as Hnd.
  { refine (bool_decide_unpack _ _). vm_compute. exact I. }
  assert (∀ p, p ∈ walked (H := demo_platform) walk_scan →
               resolve (fs scenario_scan !! p) ≠ Some (Directory true)) as Hdir.
  { intros p Hp.
    assert (walked (H := demo_platform) walk_scan = ["/a/x.txt"; "/a/gone"])
      as Hw by (vm_compute; reflexivity).
    rewrite Hw in Hp. inv_elem Hp; subst p; vm_compute; by intros [=]. }
  split; [exact (conj Hnd Hdir)|].
  exact (HashDir_rescan (H := demo_platform) walk_scan scenario_scan Hnd Hdir).
Defined.

(** The check after that scan drops the record of the link that dangles. *)
Lemma HashDir_then_Integrity_witness :
  (NoDup (path <$> files scenario_scan) ∧
   (∀ p, p ∈ walked (H := demo_platform) walk_scan →
         resolve (fs scenario_scan !! p) ≠ Some (Directory true)) ∧
   ∀ r, r ∈ files scenario_scan →
        path r ∈ walked (H := demo_platform) walk_scan) ∧
  let w' := world (HashDir (H := demo_platform) true walk_scan scenario_scan) in
  result (Integrity (H := demo_platform) false w') = Ok () ∧
  files (world (Integrity (H := demo_platform) false w')) =
  filter (λ r, isfile_at scenario_scan (path r) = true) (files w').
Proof.
  assert (NoDup (path <$> files scenario_scan)) as Hnd.
  { refine (bool_decide_unpack _ _). vm_compute. exact I. }
  assert (∀ p, p ∈ walked (H := demo_platform) walk_scan →
               resolve (fs scenario_scan !! p) ≠ Some (Directory true)) as Hdir.
  { intros p Hp.
    assert (walked (H := demo_platform) walk_scan = ["/a/x.txt"; "/a/gone"])
      as Hw by (vm_compute; reflexivity).
    rewrite Hw in Hp. inv_elem Hp; subst p; vm_compute; by intros [=]. }
  assert (∀ r, r ∈ files scenario_scan →
               path r ∈ walked (H := demo_platform) walk_scan) as Hall.
  { intros r Hr. simpl in Hr. by apply elem_of_nil in Hr. }
  split; [exact (conj Hnd (conj Hdir Hall))|].
  exact (HashDir_then_Integrity (H := demo_platform) walk_scan scenario_scan
           Hnd Hdir Hall).
Defined.

(** The purge of scenario A returns, and has deleted the record of the
    file it has unlinked. *)
Lemma Purge_in_step_witness :
  let run := Purge (H := demo_platform) false "/a" scenario_A in
  result run = Ok () ∧
  files (world run) =
    filter (λ r, OsRemove (path r) ∉ output run) (files scenario_A) ∧
  ∀ p, OsRemove p ∈ output run → fs (world run) !! p = None.
Proof.
  assert (result (Purge (H := demo_platform) false "/a" scenario_A) = Ok ())
    as Hres by (vm_compute; reflexivity).
  split; [exact Hres|].
  exact (Purge_in_step (H := demo_platform) false "/a" scenario_A Hres).
Defined.
